(** * Makespan scheduling on identical machines: the CP model of [solver.py]

    [scheduling/solver.py] encodes "minimum makespan on identical parallel
    machines" as a constraint model (boolean assignment variables, one load
    variable per machine, one makespan variable) and hands it to the CP-SAT
    solver of OR-tools.  This file embeds

    - the part of the OR-tools modelling interface the script uses
      ([CpModel], [NewBoolVar], [NewIntVar], [Add], [AddMaxEquality],
      [Minimize], [CpSolver.Solve], [ObjectiveValue], [Value]),
    - the [Scheduler] class and the function [schedule], and
    - the scheduling problem itself (assignments, loads, makespan),

    and relates the value the script returns to the scheduling problem.

    OR-tools is a library the script imports, not part of it.  Its solver
    is taken through a contract, [CpSat.SolveContract]: with no time limit,
    [Solve] ends with an optimal solution when the model has a solution.
    The script is run over an arbitrary solver [Solve]; the results hold for
    every solver that meets the contract, and [ReferenceSolver.Solve], an
    exhaustive search, is one that does and that computes.

    Layout: the definitions come first (Python helpers, the OR-tools
    interface, the script, the model in closed form, the scheduling
    problem), then the lemmas, then the properties of [schedule], C1 to
    C10, then further properties of the methods, of the model and of the
    returned value, X1 to X17. *)

From Stdlib Require Import String Ascii DecimalString.
From Stdlib Require Import ZArith Bool Lia List.
Import ListNotations.
Open Scope Z_scope.

(** ** Python helpers *)

(** [range(n)] for a Python integer [n]: empty when [n <= 0]. *)
Definition range (n : Z) : list nat := seq 0 (Z.to_nat n).

(** [enumerate(xs)]. *)
Definition enumerate {A : Type} (xs : list A) : list (nat * A) :=
  combine (seq 0 (length xs)) xs.

(** [sum(xs)] on Python integers. *)
Definition sum (xs : list Z) : Z := fold_left Z.add xs 0.
Arguments sum : simpl never.

(** [str(n)] for a natural number. *)
Definition str (n : nat) : string := NilEmpty.string_of_uint (Nat.to_uint n).

(** ** The OR-tools CP-SAT modelling interface

    The objects of [ortools.sat.python.cp_model] the script touches.  A
    model is a list of integer variables with their domains, a list of
    constraints and an objective; the Python methods that grow it are
    functions in the state monad [Build]. *)

Module CpSat.

(** A variable is its index in the model, as in the model protocol buffer. *)
Definition IntVar := nat.

Record IntegerVariable := {
  var_name : string;
  var_lb : Z;
  var_ub : Z
}.

(** A linear expression: [sum of coefficient * variable] plus a constant. *)
Record LinearExpr := {
  terms : list (Z * IntVar);
  constant : Z
}.

Definition var_expr (v : IntVar) : LinearExpr :=
  {| terms := [(1, v)]; constant := 0 |}.

Definition scale (c : Z) (e : LinearExpr) : LinearExpr :=
  {| terms := map (fun t => (c * fst t, snd t)) (terms e);
     constant := c * constant e |}.

Definition plus (e1 e2 : LinearExpr) : LinearExpr :=
  {| terms := terms e1 ++ terms e2; constant := constant e1 + constant e2 |}.

Definition minus (e1 e2 : LinearExpr) : LinearExpr := plus e1 (scale (-1) e2).

(** What a Python arithmetic expression over numbers and variables evaluates
    to: a plain number, or a linear expression object. *)
Inductive PyNum :=
| Num (c : Z)
| Expr (e : LinearExpr).

Definition py_add (a b : PyNum) : PyNum :=
  match a, b with
  | Num x, Num y => Num (x + y)
  | Num x, Expr e => Expr (plus e {| terms := []; constant := x |})
  | Expr e, Num y => Expr (plus e {| terms := []; constant := y |})
  | Expr e1, Expr e2 => Expr (plus e1 e2)
  end.

(** [variable * number]. *)
Definition py_mul (v : IntVar) (c : Z) : PyNum := Expr (scale c (var_expr v)).

(** The builtin [sum] over a generator of variables: starts from the
    integer [0], so the sum of no variable is the number [0]. *)
Definition py_sum (vs : list IntVar) : PyNum :=
  fold_left (fun acc v => py_add acc (Expr (var_expr v))) vs (Num 0).

(** [np.dot(row, times)] on a row of variables and a sequence of integers of
    the same length: [row[0]*times[0] + row[1]*times[1] + ...].  For two
    empty sequences numpy answers the float [0.0], kept here as the number
    [0].  On sequences of different lengths numpy raises; [combine] is only
    meant for equal lengths, which is what the script passes. *)
Definition np_dot (row : list IntVar) (times : list Z) : PyNum :=
  match combine row times with
  | [] => Num 0
  | (v, c) :: rest =>
      fold_left (fun acc vc => py_add acc (py_mul (fst vc) (snd vc)))
                rest (py_mul v c)
  end.

(** What [==] builds and [CpModel.Add] accepts: a bounded linear expression
    when a side is a linear expression, or a Python [bool] when both sides
    are plain numbers. *)
Inductive AddArg :=
| Bounded (e : LinearExpr) (lb ub : Z)
| PyBool (b : bool).

Definition py_eq (a b : PyNum) : AddArg :=
  match a, b with
  | Num x, Num y => PyBool (x =? y)
  | Expr e, Num y => Bounded e y y
  | Num x, Expr e => Bounded e x x
  | Expr e1, Expr e2 => Bounded (minus e1 e2) 0 0
  end.

Inductive Constraint :=
| Linear (e : LinearExpr) (lb ub : Z)
| BoolOr (literals : list bool)
| MaxEquality (target : IntVar) (vars : list IntVar).

Record CpModel := {
  variables : list IntegerVariable;
  constraints : list Constraint;
  objective : option LinearExpr
}.

(** [CpModel()]. *)
Definition new_model : CpModel :=
  {| variables := []; constraints := []; objective := None |}.

(** *** Building a model: a state monad over [CpModel] *)

Definition Build (A : Type) : Type := CpModel -> A * CpModel.

Definition ret {A : Type} (a : A) : Build A := fun m => (a, m).

Definition bind {A B : Type} (c : Build A) (k : A -> Build B) : Build B :=
  fun m => let (a, m') := c m in k a m'.

Declare Scope build_scope.
Delimit Scope build_scope with build.
Notation "x <- c ;; k" := (bind c (fun x => k))
  (at level 61, c at next level, right associativity) : build_scope.
Notation "c ;;; k" := (bind c (fun _ => k))
  (at level 61, right associativity) : build_scope.

(** A [for] loop (or a list comprehension) whose body runs in [Build],
    collecting what each iteration produced. *)
Fixpoint for_each {A B : Type} (xs : list A) (body : A -> Build B)
  : Build (list B) :=
  match xs with
  | [] => ret []
  | x :: xs' =>
      bind (body x) (fun b => bind (for_each xs' body) (fun bs => ret (b :: bs)))
  end.

Definition NewIntVar (lb ub : Z) (name : string) : Build IntVar :=
  fun m =>
    (length (variables m),
     {| variables := variables m ++ [{| var_name := name; var_lb := lb; var_ub := ub |}];
        constraints := constraints m;
        objective := objective m |}).

Definition NewBoolVar (name : string) : Build IntVar := NewIntVar 0 1 name.

Definition add_constraint (c : Constraint) : Build unit :=
  fun m =>
    (tt,
     {| variables := variables m;
        constraints := constraints m ++ [c];
        objective := objective m |}).

Definition AddBoolOr (literals : list bool) : Build unit :=
  add_constraint (BoolOr literals).

(** [CpModel.Add]: a bounded linear expression becomes a linear constraint;
    [True] becomes [AddBoolOr([True])] and [False] becomes [AddBoolOr([])]. *)
Definition Add (ct : AddArg) : Build unit :=
  match ct with
  | Bounded e lb ub => add_constraint (Linear e lb ub)
  | PyBool true => AddBoolOr [true]
  | PyBool false => AddBoolOr []
  end.

Definition AddMaxEquality (target : IntVar) (vars : list IntVar) : Build unit :=
  add_constraint (MaxEquality target vars).

Definition Minimize (obj : IntVar) : Build unit :=
  fun m =>
    (tt,
     {| variables := variables m;
        constraints := constraints m;
        objective := Some (var_expr obj) |}).

(** *** What a model means *)

(** A valuation gives each variable, by index, its value. *)
Definition value (s : list Z) (v : IntVar) : Z := nth v s 0.

Definition eval (e : LinearExpr) (s : list Z) : Z :=
  fold_right (fun t acc => fst t * value s (snd t) + acc) (constant e) (terms e).

Definition in_domain (x : IntegerVariable) (z : Z) : bool :=
  (var_lb x <=? z) && (z <=? var_ub x).

Fixpoint domains_ok (xs : list IntegerVariable) (s : list Z) : bool :=
  match xs, s with
  | [], [] => true
  | x :: xs', z :: s' => in_domain x z && domains_ok xs' s'
  | _, _ => false
  end.

(** The maximum of a list of integers; there is none for the empty list. *)
Definition maximum (zs : list Z) : option Z :=
  match zs with
  | [] => None
  | z :: zs' => Some (fold_left Z.max zs' z)
  end.

Definition holds (s : list Z) (c : Constraint) : bool :=
  match c with
  | Linear e lb ub => (lb <=? eval e s) && (eval e s <=? ub)
  | BoolOr literals => existsb (fun b => b) literals
  | MaxEquality target vars =>
      match maximum (map (value s) vars) with
      | Some mx => value s target =? mx
      | None => false
      end
  end.

Definition is_feasible (m : CpModel) (s : list Z) : bool :=
  domains_ok (variables m) s && forallb (holds s) (constraints m).

Definition objective_of (m : CpModel) (s : list Z) : Z :=
  match objective m with
  | Some e => eval e s
  | None => 0
  end.

(** *** The solver's answer *)

Inductive CpSolverStatus := UNKNOWN | MODEL_INVALID | FEASIBLE | INFEASIBLE | OPTIMAL.

(** The response the solver object holds after [Solve].  The objective value
    is a Python [float] holding an integer; it is kept as that integer. *)
Record CpSolverResponse := {
  status : CpSolverStatus;
  objective_value : Z;
  solution : list Z
}.

(** [solver.ObjectiveValue()]. *)
Definition ObjectiveValue (r : CpSolverResponse) : Z := objective_value r.

(** [solver.Value(var)]: the variable's entry in the stored solution; there
    is none (the lookup raises) when the solve found no solution. *)
Definition Value (r : CpSolverResponse) (v : IntVar) : option Z :=
  nth_error (solution r) v.

(** What [CpSolver.Solve] without a time limit promises.  When the model
    has a solution the search ends with status [OPTIMAL], a solution of
    least objective and its objective value.  When it has none the status is
    [INFEASIBLE] or [MODEL_INVALID] and the response is empty: no solution,
    and the objective value field at its default, [0]. *)
Inductive SolveContract (m : CpModel) : CpSolverResponse -> Prop :=
| Solved (s : list Z) :
    is_feasible m s = true ->
    (forall s', is_feasible m s' = true -> objective_of m s <= objective_of m s') ->
    SolveContract m {| status := OPTIMAL;
                       objective_value := objective_of m s;
                       solution := s |}
| NoSolution (st : CpSolverStatus) :
    (forall s, is_feasible m s = false) ->
    st = INFEASIBLE \/ st = MODEL_INVALID ->
    SolveContract m {| status := st; objective_value := 0; solution := [] |}.

End CpSat.

(** ** A reference solver

    An exhaustive search over the variables' domains: it meets
    [CpSat.SolveContract] and makes [schedule] executable. *)

Module ReferenceSolver.
Import CpSat.

Definition domain_values (x : IntegerVariable) : list Z :=
  map (fun k => var_lb x + Z.of_nat k)
      (seq 0 (Z.to_nat (var_ub x - var_lb x + 1))).

Fixpoint all_valuations (xs : list IntegerVariable) : list (list Z) :=
  match xs with
  | [] => [[]]
  | x :: xs' =>
      flat_map (fun z => map (cons z) (all_valuations xs')) (domain_values x)
  end.

(** The first candidate of least cost. *)
Fixpoint best (cost : list Z -> Z) (cands : list (list Z)) : option (list Z) :=
  match cands with
  | [] => None
  | s :: cands' =>
      match best cost cands' with
      | Some s' => if cost s' <? cost s then Some s' else Some s
      | None => Some s
      end
  end.

(** The search, over the order in which the solutions are considered; ties
    between solutions of least cost go to the first one in that order. *)
Definition Solve_with (order : list (list Z) -> list (list Z)) (m : CpModel)
  : CpSolverResponse :=
  let sols := filter (fun s => forallb (holds s) (constraints m))
                     (all_valuations (variables m)) in
  match best (objective_of m) (order sols) with
  | Some s => {| status := OPTIMAL;
                 objective_value := objective_of m s;
                 solution := s |}
  | None => {| status := INFEASIBLE; objective_value := 0; solution := [] |}
  end.

Definition Solve : CpModel -> CpSolverResponse := Solve_with (fun sols => sols).

(** The same search breaking ties the other way round. *)
Definition Solve_last : CpModel -> CpSolverResponse := Solve_with (@rev (list Z)).

End ReferenceSolver.

(** ** Running the script: printed lines and exceptions *)

(** A line written by [print].  [PrintMakespan v] is the line
    ["Optimal makespan:  v"], [PrintMachine i scheduled] the line
    ["Machine i: scheduled"] with the tuple of job indices. *)
Inductive Line :=
| PrintMakespan (v : Z)
| PrintMachine (i : nat) (scheduled : list nat).

(** The only exception the script can meet: [solver.Value] asked for a
    variable of a response that holds no solution. *)
Inductive PyError := NoSolutionValue.

Inductive Outcome (A : Type) :=
| Returned (a : A)
| Raised (e : PyError).
Arguments Returned {A} a.
Arguments Raised {A} e.

(** A run: the lines printed, in order, and how the run ended. *)
Definition Py (A : Type) : Type := (list Line * Outcome A)%type.

Definition py_ret {A : Type} (a : A) : Py A := ([], Returned a).

Definition py_bind {A B : Type} (c : Py A) (k : A -> Py B) : Py B :=
  match c with
  | (out, Returned a) => let (out', r) := k a in (out ++ out', r)
  | (out, Raised e) => (out, Raised e)
  end.

Definition print (l : Line) : Py unit := ([l], Returned tt).

Definition lift_option {A : Type} (o : option A) : Py A :=
  match o with
  | Some a => py_ret a
  | None => ([], Raised NoSolutionValue)
  end.

Fixpoint py_for {A : Type} (xs : list A) (body : A -> Py unit) : Py unit :=
  match xs with
  | [] => py_ret tt
  | x :: xs' => py_bind (body x) (fun _ => py_for xs' body)
  end.

(** ** The class [Scheduler]

    One definition per method, under the method's name.  [self] is the
    record of the four attributes [__init__] sets; the model the methods
    extend is the state of [Build], and the list [jobs] they append to is
    passed in and handed back. *)

Module Scheduler.
Import CpSat.

Record t := {
  job_times : list Z;
  n_jobs : nat;
  n_machines : Z;
  upper_bound : Z
}.

Definition __init__ (job_times : list Z) (n_machines : Z) : t :=
  {| job_times := job_times;
     n_jobs := length job_times;
     n_machines := n_machines;
     upper_bound := sum job_times |}.

(** The name [f'Job [{i, j}]']: the pair is formatted as a tuple. *)
Definition job_name (i j : nat) : string :=
  ("Job [(" ++ str i ++ ", " ++ str j ++ ")]")%string.

(** The name [f'machine_{i}_makespan']. *)
Definition machine_name (i : nat) : string :=
  ("machine_" ++ str i ++ "_makespan")%string.

Open Scope build_scope.

(** Appends one row of boolean variables per machine to [jobs]. *)
Definition _add_bool_vars (self : t) (jobs : list (list IntVar))
  : Build (list (list IntVar)) :=
  rows <- for_each (range (n_machines self)) (fun i =>
            for_each (enumerate (job_times self)) (fun jt =>
              NewBoolVar (job_name i (fst jt)))) ;;
  ret (jobs ++ rows).

(** [jobs[i][j]].  Python raises [IndexError] when [jobs] has no row [i] or
    the row no entry [j]; the defaults below stand in for that case only.
    The rows [schedule] builds, one per machine with one entry per job,
    never reach it, and what is proved of the methods is stated for [jobs]
    of that shape. *)
Definition item (jobs : list (list IntVar)) (i j : nat) : IntVar :=
  nth j (nth i jobs []) 0%nat.

Definition _add_single_machine_constraints (self : t) (jobs : list (list IntVar))
  : Build unit :=
  for_each (seq 0 (n_jobs self)) (fun j =>
    Add (py_eq (py_sum (map (fun i => item jobs i j) (range (n_machines self))))
               (Num 1))) ;;;
  ret tt.

(** [jobs[i]] is [nth i jobs []]: as for [item], the default stands in for
    the [IndexError] of a missing row, and [np_dot] is meant for a row as
    long as [job_times]; both hold for the rows [schedule] builds. *)
Definition _add_machine_makespan_constraints (self : t) (jobs : list (list IntVar))
  : Build (list IntVar) :=
  for_each (range (n_machines self)) (fun i =>
    machine_makespan <- NewIntVar 0 (upper_bound self) (machine_name i) ;;
    Add (py_eq (Expr (var_expr machine_makespan))
               (np_dot (nth i jobs []) (job_times self))) ;;;
    ret machine_makespan).

Definition _define_objective (self : t) (machine_makespans : list IntVar)
  : Build IntVar :=
  makespan <- NewIntVar 0 (upper_bound self) "makespan" ;;
  AddMaxEquality makespan machine_makespans ;;;
  ret makespan.

(** The model-building half of the method [schedule]: the model and the
    rows of assignment variables it leaves behind. *)
Definition build (self : t) : Build (list (list IntVar)) :=
  jobs <- _add_bool_vars self [] ;;
  _add_single_machine_constraints self jobs ;;;
  machine_makespans <- _add_machine_makespan_constraints self jobs ;;
  makespan <- _define_objective self machine_makespans ;;
  Minimize makespan ;;;
  ret jobs.

Close Scope build_scope.

(** [tuple(index for index, job in enumerate(row) if solver.Value(job))]. *)
Fixpoint scheduled_in (solver : CpSolverResponse) (row : list (nat * IntVar))
  : Py (list nat) :=
  match row with
  | [] => py_ret []
  | (index, job) :: row' =>
      py_bind (lift_option (Value solver job)) (fun v =>
      py_bind (scheduled_in solver row') (fun rest =>
      py_ret (if v =? 0 then rest else index :: rest)))
  end.

Definition _print_results (solver : CpSolverResponse) (jobs : list (list IntVar))
  : Py unit :=
  py_bind (print (PrintMakespan (ObjectiveValue solver))) (fun _ =>
  py_for (enumerate jobs) (fun ir =>
    py_bind (scheduled_in solver (enumerate (snd ir))) (fun scheduled =>
    print (PrintMachine (fst ir) scheduled)))).

Section WithSolver.

(** [CpSolver().Solve]. *)
Variable Solve : CpModel -> CpSolverResponse.

Definition schedule (self : t) : Py Z :=
  let (jobs, model) := build self new_model in
  let solver := Solve model in
  py_bind (_print_results solver jobs) (fun _ =>
  py_ret (ObjectiveValue solver)).

End WithSolver.

End Scheduler.

(** The function [schedule] of the script, over a solver. *)
Definition schedule (Solve : CpSat.CpModel -> CpSat.CpSolverResponse)
  (job_times : list Z) (n_machines : Z) : Py Z :=
  Scheduler.schedule Solve (Scheduler.__init__ job_times n_machines).

(** The value a run returned, if it returned. *)
Definition returned {A : Type} (r : Py A) : option A :=
  match snd r with
  | Returned a => Some a
  | Raised _ => None
  end.

(** The lines a run printed. *)
Definition printed {A : Type} (r : Py A) : list Line := fst r.

(** A solver conforms when its answer meets the contract on every model. *)
Definition Conforming (Solve : CpSat.CpModel -> CpSat.CpSolverResponse) : Prop :=
  forall m, CpSat.SolveContract m (Solve m).

(** What the method holds once [solver.Solve(model)] is through: the rows
    of assignment variables, the model, and the solver with its response. *)
Definition jobs_built (job_times : list Z) (n_machines : Z) : list (list CpSat.IntVar) :=
  fst (Scheduler.build (Scheduler.__init__ job_times n_machines) CpSat.new_model).

Definition model_built (job_times : list Z) (n_machines : Z) : CpSat.CpModel :=
  snd (Scheduler.build (Scheduler.__init__ job_times n_machines) CpSat.new_model).

Definition solver_after (Solve : CpSat.CpModel -> CpSat.CpSolverResponse)
  (job_times : list Z) (n_machines : Z) : CpSat.CpSolverResponse :=
  Solve (model_built job_times n_machines).

(** The jobs the solver's assignment puts on machine [i]: the [j] with
    [x[i][j]] set.  A variable the solver holds no value for counts as not
    set here, where [solver.Value] raises.  On valid input every such
    variable has a value and the list is the tuple printed for machine [i]
    (C2). *)
Definition assigned_jobs (Solve : CpSat.CpModel -> CpSat.CpSolverResponse)
  (job_times : list Z) (n_machines : Z) (i : nat) : list nat :=
  filter (fun j =>
            match CpSat.Value (solver_after Solve job_times n_machines)
                              (Scheduler.item (jobs_built job_times n_machines) i j) with
            | Some v => negb (v =? 0)
            | None => false
            end)
         (seq 0 (length job_times)).

(** Reading of "the returned record contains the mapping from machines to
    job sets": some function reads each machine's jobs off the returned
    value, whichever conforming solver did the search. *)
Definition result_carries_assignment (job_times : list Z) (n_machines : Z) : Prop :=
  exists read : Z -> nat -> list nat,
    forall Solve, Conforming Solve ->
    forall v, returned (schedule Solve job_times n_machines) = Some v ->
    forall i, (i < Z.to_nat n_machines)%nat ->
      read v i = assigned_jobs Solve job_times n_machines i.

(** ** The model the script builds, in closed form *)

Module Model.
Import CpSat.

(** [m] extended by variables [xs] and constraints [cs]. *)
Definition extend (m : CpModel) (xs : list IntegerVariable) (cs : list Constraint)
  : CpModel :=
  {| variables := variables m ++ xs;
     constraints := constraints m ++ cs;
     objective := objective m |}.

Definition mk_var (name : string) (lb ub : Z) : IntegerVariable :=
  {| var_name := name; var_lb := lb; var_ub := ub |}.

(** The constraint [CpModel.Add] stores for its argument. *)
Definition constraint_of (ct : AddArg) : Constraint :=
  match ct with
  | Bounded e lb ub => Linear e lb ub
  | PyBool true => BoolOr [true]
  | PyBool false => BoolOr []
  end.

(** Indices of the variables, for [M] machines and [N] jobs. *)
Definition x_var (N i j : nat) : IntVar := (i * N + j)%nat.
Definition load_var (M N i : nat) : IntVar := (M * N + i)%nat.
Definition makespan_var (M N : nat) : IntVar := (M * N + M)%nat.

Definition rows (M N : nat) : list (list IntVar) :=
  map (fun i => seq (i * N) N) (seq 0 M).

Definition cover (M N j : nat) : Constraint :=
  constraint_of (py_eq (py_sum (map (fun i => x_var N i j) (seq 0 M))) (Num 1)).

Definition load_def (M N : nat) (times : list Z) (i : nat) : Constraint :=
  constraint_of (py_eq (Expr (var_expr (load_var M N i)))
                       (np_dot (seq (i * N) N) times)).

Definition model_of (times : list Z) (M : nat) : CpModel :=
  let N := length times in
  let U := sum times in
  {| variables :=
       flat_map (fun i => map (fun j => mk_var (Scheduler.job_name i j) 0 1) (seq 0 N))
                (seq 0 M)
       ++ map (fun i => mk_var (Scheduler.machine_name i) 0 U) (seq 0 M)
       ++ [mk_var "makespan" 0 U];
     constraints :=
       map (cover M N) (seq 0 N)
       ++ map (load_def M N times) (seq 0 M)
       ++ [MaxEquality (makespan_var M N) (seq (M * N) M)];
     objective := Some (var_expr (makespan_var M N)) |}.

(** The number a Python arithmetic expression denotes under a valuation. *)
Definition den (p : PyNum) (s : list Z) : Z :=
  match p with
  | Num c => c
  | Expr e => eval e s
  end.

Definition dot_terms (ts : list (Z * IntVar)) (s : list Z) : Z :=
  sum (map (fun t => fst t * value s (snd t)) ts).

End Model.

(** ** The scheduling problem *)

Module Problem.

(** An assignment sends each job index to a machine index. *)
Definition Assignment := nat -> nat.

(** It is total for [N] jobs on [M] machines when every job has a machine. *)
Definition total (M N : nat) (asg : Assignment) : Prop :=
  forall j, (j < N)%nat -> (asg j < M)%nat.

(** [sum over k of f (a + k) t_k] for the jobs' durations [t_0, t_1, ...]. *)
Definition wsum (f : nat -> Z -> Z) (a : nat) (times : list Z) : Z :=
  sum (map (fun jt => f (fst jt) (snd jt)) (combine (seq a (length times)) times)).

(** The load of machine [i]: the durations of the jobs assigned to it. *)
Definition load (times : list Z) (asg : Assignment) (i : nat) : Z :=
  sum (map (fun jt => if (asg (fst jt) =? i)%nat then snd jt else 0)
           (enumerate times)).

(** The makespan: the largest load over the [M] machines. *)
Definition makespan (times : list Z) (M : nat) (asg : Assignment) : Z :=
  match CpSat.maximum (map (load times asg) (seq 0 M)) with
  | Some v => v
  | None => 0
  end.

(** [v] is the least makespan over all total assignments. *)
Definition optimal_makespan (times : list Z) (M : nat) (v : Z) : Prop :=
  (exists asg, total M (length times) asg /\ makespan times M asg = v)
  /\ (forall asg, total M (length times) asg -> v <= makespan times M asg).

(** The durations of the jobs with indices [js], added up. *)
Definition jobs_load (times : list Z) (js : list nat) : Z :=
  sum (map (fun j => nth j times 0) js).

End Problem.

(** ** Valuations of the model and assignments of the problem *)

Module Correspondence.
Import CpSat Model Problem.

(** What a feasible valuation of the model satisfies. *)
Record Sound (times : list Z) (M : nat) (s : list Z) : Prop := {
  sound_length : length s = (M * length times + M + 1)%nat;
  sound_bool : forall i j, (i < M)%nat -> (j < length times)%nat ->
    value s (x_var (length times) i j) = 0 \/ value s (x_var (length times) i j) = 1;
  sound_cover : forall j, (j < length times)%nat ->
    sum (map (fun i => value s (x_var (length times) i j)) (seq 0 M)) = 1;
  sound_load : forall i, (i < M)%nat ->
    value s (load_var M (length times) i)
    = wsum (fun v t => t * value s v) (i * length times) times;
  sound_max :
    maximum (map (fun i => value s (load_var M (length times) i)) (seq 0 M))
    = Some (value s (makespan_var M (length times)))
}.

(** The machine a valuation puts job [j] on: the first machine whose
    assignment variable for [j] is set. *)
Definition machine_of (s : list Z) (M N j : nat) : nat :=
  match find (fun i => negb (value s (x_var N i j) =? 0)) (seq 0 M) with
  | Some i => i
  | None => 0%nat
  end.

Definition valuation (times : list Z) (M : nat) (asg : Assignment) : list Z :=
  flat_map (fun i => map (fun j => if (asg j =? i)%nat then 1 else 0)
                         (seq 0 (length times))) (seq 0 M)
  ++ map (load times asg) (seq 0 M)
  ++ [makespan times M asg].

(** The jobs a valuation schedules on machine [i], as [_print_results]
    collects them: the indices whose assignment variable is set. *)
Definition scheduled (s : list Z) (N i : nat) : list nat :=
  filter (fun j => negb (value s (x_var N i j) =? 0)) (seq 0 N).

(** The lines printed for the machines. *)
Definition machine_lines (s : list Z) (M N : nat) : list Line :=
  map (fun i => PrintMachine i (scheduled s N i)) (seq 0 M).

End Correspondence.

(** ** The builder computes the closed form *)

Module BuildFacts.
Import CpSat Model.

#[local] Arguments py_eq : simpl never.
#[local] Arguments py_sum : simpl never.
#[local] Arguments np_dot : simpl never.
#[local] Arguments constraint_of : simpl never.

Lemma extend_nil m : extend m [] [] = m.
Proof. destruct m; unfold extend; simpl; now rewrite !app_nil_r. Qed.

Lemma extend_extend m xs cs xs' cs' :
  extend (extend m xs cs) xs' cs' = extend m (xs ++ xs') (cs ++ cs').
Proof. unfold extend; simpl; now rewrite !app_assoc. Qed.

Lemma NewIntVar_run lb ub name m :
  NewIntVar lb ub name m = (length (variables m), extend m [mk_var name lb ub] []).
Proof. unfold NewIntVar, extend, mk_var; now rewrite app_nil_r. Qed.

Lemma Add_run ct m : Add ct m = (tt, extend m [] [constraint_of ct]).
Proof.
  destruct ct as [e lb ub|[|]]; unfold Add, AddBoolOr, add_constraint, extend;
    simpl; now rewrite app_nil_r.
Qed.

Lemma AddMaxEquality_run t vs m :
  AddMaxEquality t vs m = (tt, extend m [] [MaxEquality t vs]).
Proof. unfold AddMaxEquality, add_constraint, extend; now rewrite app_nil_r. Qed.

(** A loop that only creates variables. *)
Lemma for_each_new_vars {A} (xs : list A) (nm : A -> string) lb ub : forall m,
  for_each xs (fun x => NewIntVar lb ub (nm x)) m
  = (seq (length (variables m)) (length xs),
     extend m (map (fun x => mk_var (nm x) lb ub) xs) []).
Proof.
  induction xs as [|x xs IH]; intros m; simpl.
  - unfold ret; now rewrite extend_nil.
  - unfold bind at 1. rewrite NewIntVar_run.
    unfold bind at 1. rewrite IH. unfold ret. rewrite extend_extend. simpl.
    rewrite length_app. simpl. now rewrite Nat.add_1_r.
Qed.

(** A loop that only adds constraints. *)
Lemma for_each_add {A} (xs : list A) (ct : A -> AddArg) : forall m,
  snd (for_each xs (fun x => Add (ct x)) m)
  = extend m [] (map (fun x => constraint_of (ct x)) xs).
Proof.
  induction xs as [|x xs IH]; intros m; simpl.
  - unfold ret; simpl; now rewrite extend_nil.
  - unfold bind at 1. rewrite Add_run.
    unfold bind at 1.
    specialize (IH (extend m [] [constraint_of (ct x)])).
    destruct (for_each xs _ _) as [bs m']. simpl in *. subst m'.
    now rewrite extend_extend.
Qed.

Lemma map_fst_enumerate {A B} (g : nat -> B) (l : list A) :
  map (fun jt => g (fst jt)) (enumerate l) = map g (seq 0 (length l)).
Proof.
  unfold enumerate. generalize 0%nat.
  induction l as [|x l IH]; intros a; simpl; [reflexivity|].
  now rewrite IH.
Qed.

Lemma length_enumerate {A} (l : list A) : length (enumerate l) = length l.
Proof.
  unfold enumerate. rewrite length_combine, length_seq. apply Nat.min_id.
Qed.

(** The loop of [_add_bool_vars]: one row of fresh variables per machine. *)
Lemma for_each_rows (times : list Z) : forall len a m,
  for_each (seq a len) (fun i =>
    for_each (enumerate times) (fun jt =>
      NewBoolVar (Scheduler.job_name i (fst jt)))) m
  = (map (fun i => seq (length (variables m) + (i - a) * length times)%nat
                       (length times)) (seq a len),
     extend m
       (flat_map (fun i => map (fun j => mk_var (Scheduler.job_name i j) 0 1)
                               (seq 0 (length times))) (seq a len)) []).
Proof.
  induction len as [|len IH]; intros a m; simpl.
  - unfold ret; now rewrite extend_nil.
  - unfold bind at 1. unfold NewBoolVar.
    rewrite (for_each_new_vars (enumerate times)
               (fun jt => Scheduler.job_name a (fst jt)) 0 1 m).
    rewrite length_enumerate, (map_fst_enumerate (fun j => mk_var (Scheduler.job_name a j) 0 1)).
    unfold bind at 1. unfold NewBoolVar in IH. rewrite IH. unfold ret.
    rewrite extend_extend. simpl.
    rewrite Nat.sub_diag, Nat.add_0_r. f_equal. f_equal.
    apply map_ext_in. intros i Hi. apply in_seq in Hi.
    rewrite length_app, length_map, length_seq. f_equal.
    replace (i - a)%nat with (S (i - S a)) by lia. simpl. lia.
Qed.

(** The loop of [_add_machine_makespan_constraints]. *)
Lemma for_each_loads (U : Z) (jobs : list (list IntVar)) (times : list Z) :
  forall len a m,
  for_each (seq a len) (fun i =>
    bind (NewIntVar 0 U (Scheduler.machine_name i)) (fun machine_makespan =>
    bind (Add (py_eq (Expr (var_expr machine_makespan))
                     (np_dot (nth i jobs []) times))) (fun _ =>
    ret machine_makespan))) m
  = (seq (length (variables m)) len,
     extend m
       (map (fun i => mk_var (Scheduler.machine_name i) 0 U) (seq a len))
       (map (fun i => constraint_of
                        (py_eq (Expr (var_expr (length (variables m) + (i - a))%nat))
                               (np_dot (nth i jobs []) times)))
            (seq a len))).
Proof.
  induction len as [|len IH]; intros a m; simpl.
  - unfold ret; now rewrite extend_nil.
  - unfold bind at 1. unfold bind at 1. rewrite NewIntVar_run.
    unfold bind at 1. rewrite Add_run. unfold ret at 1.
    unfold bind at 1. rewrite IH. unfold ret.
    rewrite !extend_extend. simpl.
    rewrite length_app. simpl. rewrite Nat.add_1_r, Nat.sub_diag, Nat.add_0_r.
    f_equal. f_equal. f_equal.
    apply map_ext_in. intros i Hi. apply in_seq in Hi.
    replace (S (length (variables m)) + (i - S a))%nat
      with (length (variables m) + (i - a))%nat by lia.
    reflexivity.
Qed.

Lemma length_flat_rows {A} (f : nat -> nat -> A) (N : nat) : forall len a,
  length (flat_map (fun i => map (f i) (seq 0 N)) (seq a len)) = (len * N)%nat.
Proof.
  induction len as [|len IH]; intros a; simpl; [reflexivity|].
  now rewrite length_app, length_map, length_seq, IH.
Qed.

Lemma nth_rows (M N i : nat) :
  (i < M)%nat -> nth i (rows M N) [] = seq (i * N) N.
Proof.
  intros Hi. unfold rows.
  rewrite (nth_indep _ [] (seq (0 * N) N)) by now rewrite length_map, length_seq.
  rewrite (map_nth (fun i => seq (i * N) N)), seq_nth by assumption.
  reflexivity.
Qed.

Lemma item_rows (M N i j : nat) :
  (i < M)%nat -> (j < N)%nat -> Scheduler.item (rows M N) i j = x_var N i j.
Proof.
  intros Hi Hj. unfold Scheduler.item. rewrite nth_rows by assumption.
  now rewrite seq_nth.
Qed.

(** What the model-building half of [schedule] leaves behind. *)
Lemma build_run (times : list Z) (n_machines : Z) :
  Scheduler.build (Scheduler.__init__ times n_machines) new_model
  = (rows (Z.to_nat n_machines) (length times),
     model_of times (Z.to_nat n_machines)).
Proof.
  set (M := Z.to_nat n_machines). set (N := length times).
  unfold Scheduler.build, Scheduler._add_bool_vars,
    Scheduler._add_single_machine_constraints,
    Scheduler._add_machine_makespan_constraints, Scheduler._define_objective.
  simpl. unfold range. fold M. fold N.
  unfold bind at 1. unfold bind at 1.
  rewrite (for_each_rows times M 0 new_model). fold N. unfold ret at 1.
  simpl length. simpl. 
  assert (Hrows : map (fun i => seq ((i - 0) * N) N) (seq 0 M) = rows M N).
  { unfold rows. apply map_ext. intros i. now rewrite Nat.sub_0_r. }
  rewrite Hrows. clear Hrows.
  unfold bind at 1. unfold bind at 1.
  match goal with |- context [for_each (seq 0 N) ?b ?m] =>
    pose proof (for_each_add (seq 0 N)
      (fun j => py_eq (py_sum (map (fun i => Scheduler.item (rows M N) i j) (seq 0 M)))
                      (Num 1)) m) as Hadd;
    destruct (for_each (seq 0 N) b m) as [us m1] end.
  simpl in Hadd. subst m1. unfold ret at 1. rewrite extend_extend. simpl.
  unfold bind at 1.
  rewrite (for_each_loads (sum times) (rows M N) times M 0).
  rewrite extend_extend. simpl. rewrite !app_nil_r.
  rewrite length_flat_rows.
  unfold bind at 1. unfold bind at 1. rewrite NewIntVar_run.
  unfold bind at 1. rewrite AddMaxEquality_run. unfold ret at 1.
  rewrite !extend_extend.
  unfold bind at 1. unfold Minimize, ret. simpl.
  rewrite !length_app, length_flat_rows, length_map, length_seq.
  f_equal. unfold model_of. fold N. unfold makespan_var. f_equal.
  - now rewrite <- app_assoc.
  - rewrite <- app_assoc. f_equal; [|f_equal].
    + apply map_ext_in. intros j Hj. apply in_seq in Hj. unfold cover.
      do 3 f_equal. apply map_ext_in. intros i Hi. apply in_seq in Hi.
      apply item_rows; lia.
    + apply map_ext_in. intros i Hi. apply in_seq in Hi. unfold load_def.
      rewrite nth_rows by lia. rewrite Nat.sub_0_r. reflexivity.
Qed.

End BuildFacts.

(** ** Sums and maxima *)

Module Sums.
Import Problem.

Lemma fold_left_add_acc (xs : list Z) : forall a, fold_left Z.add xs a = a + sum xs.
Proof.
  unfold sum. induction xs as [|x xs IH]; intros a; simpl; [lia|].
  rewrite (IH (a + x)), (IH x). lia.
Qed.

Lemma sum_nil : sum [] = 0.
Proof. reflexivity. Qed.

Lemma sum_cons x xs : sum (x :: xs) = x + sum xs.
Proof. unfold sum at 1. simpl. apply fold_left_add_acc. Qed.

Lemma sum_app xs ys : sum (xs ++ ys) = sum xs + sum ys.
Proof.
  induction xs as [|x xs IH]; [now rewrite app_nil_l, sum_nil|].
  rewrite <- app_comm_cons, !sum_cons, IH. lia.
Qed.

Lemma sum_map_ext {A} (f g : A -> Z) (l : list A) :
  (forall a, In a l -> f a = g a) -> sum (map f l) = sum (map g l).
Proof. intros H. f_equal. now apply map_ext_in. Qed.

Lemma wsum_nil f a : wsum f a [] = 0.
Proof. reflexivity. Qed.

Lemma wsum_cons f a t times :
  wsum f a (t :: times) = f a t + wsum f (S a) times.
Proof. unfold wsum. simpl. now rewrite sum_cons. Qed.

Lemma wsum_ext f g : forall times a b,
  (forall k, (k < length times)%nat -> f (a + k)%nat (nth k times 0) = g (b + k)%nat (nth k times 0)) ->
  wsum f a times = wsum g b times.
Proof.
  induction times as [|t times IH]; intros a b H; [reflexivity|].
  rewrite !wsum_cons. f_equal.
  - specialize (H 0%nat). simpl in H. rewrite !Nat.add_0_r in H. apply H. lia.
  - apply IH. intros k Hk. specialize (H (S k)). simpl in H.
    rewrite !Nat.add_succ_r in H. apply H. lia.
Qed.

Lemma wsum_le f g : forall times a,
  (forall k, (k < length times)%nat -> f (a + k)%nat (nth k times 0) <= g (a + k)%nat (nth k times 0)) ->
  wsum f a times <= wsum g a times.
Proof.
  induction times as [|t times IH]; intros a H; [reflexivity|].
  rewrite !wsum_cons.
  assert (f a t <= g a t).
  { specialize (H 0%nat). simpl in H. rewrite !Nat.add_0_r in H. apply H. lia. }
  assert (wsum f (S a) times <= wsum g (S a) times).
  { apply IH. intros k Hk. specialize (H (S k)). simpl in H.
    rewrite !Nat.add_succ_r in H. apply H. lia. }
  lia.
Qed.

Lemma wsum_snd : forall times a, wsum (fun _ t => t) a times = sum times.
Proof.
  induction times as [|t times IH]; intros a; [reflexivity|].
  now rewrite wsum_cons, sum_cons, IH.
Qed.

Lemma wsum_app f : forall times a t,
  wsum f a (times ++ [t]) = wsum f a times + f (a + length times)%nat t.
Proof.
  induction times as [|u times IH]; intros a t.
  - simpl. rewrite wsum_cons, !wsum_nil, Nat.add_0_r. lia.
  - simpl. rewrite !wsum_cons, IH. simpl. rewrite Nat.add_succ_r. lia.
Qed.

(** *** The maximum of a list *)

Lemma fold_max_ge zs : forall z, z <= fold_left Z.max zs z.
Proof.
  induction zs as [|y zs IH]; intros z; simpl; [lia|].
  specialize (IH (Z.max z y)). lia.
Qed.

Lemma fold_max_upper zs : forall z y, In y zs -> y <= fold_left Z.max zs z.
Proof.
  induction zs as [|x zs IH]; intros z y Hy; [contradiction|].
  simpl. destruct Hy as [->|Hy].
  - pose proof (fold_max_ge zs (Z.max z y)). lia.
  - now apply IH.
Qed.

Lemma fold_max_in zs : forall z, fold_left Z.max zs z = z \/ In (fold_left Z.max zs z) zs.
Proof.
  induction zs as [|x zs IH]; intros z; simpl; [now left|].
  destruct (IH (Z.max z x)) as [H|H].
  - rewrite H. destruct (Z.max_spec z x) as [[_ ->]|[_ ->]]; [right; now left|now left].
  - right; now right.
Qed.

Lemma maximum_upper zs mx y : CpSat.maximum zs = Some mx -> In y zs -> y <= mx.
Proof.
  destruct zs as [|z zs]; [discriminate|]. simpl. intros [= <-] [->|Hy].
  - apply fold_max_ge.
  - now apply fold_max_upper.
Qed.

Lemma maximum_in zs mx : CpSat.maximum zs = Some mx -> In mx zs.
Proof.
  destruct zs as [|z zs]; [discriminate|]. simpl. intros [= <-].
  destruct (fold_max_in zs z) as [->|H]; [now left|now right].
Qed.

Lemma maximum_some zs : zs <> [] -> exists mx, CpSat.maximum zs = Some mx.
Proof. destruct zs; [congruence|]. intros _. eexists; reflexivity. Qed.

End Sums.

(** ** What the constraints of the model say *)

Module Semantics.
Import CpSat Model Problem Sums.

#[local] Arguments py_eq : simpl never.
#[local] Arguments py_sum : simpl never.
#[local] Arguments np_dot : simpl never.

Lemma eval_terms e s : eval e s = dot_terms (terms e) s + constant e.
Proof.
  unfold eval, dot_terms. induction (terms e) as [|t ts IH]; simpl.
  - rewrite ?sum_nil; lia.
  - rewrite sum_cons, IH. lia.
Qed.

Lemma dot_terms_app ts1 ts2 s :
  dot_terms (ts1 ++ ts2) s = dot_terms ts1 s + dot_terms ts2 s.
Proof. unfold dot_terms. now rewrite map_app, sum_app. Qed.

Lemma eval_plus e1 e2 s : eval (plus e1 e2) s = eval e1 s + eval e2 s.
Proof. rewrite !eval_terms. simpl. rewrite dot_terms_app. lia. Qed.

Lemma eval_scale c e s : eval (scale c e) s = c * eval e s.
Proof.
  rewrite !eval_terms. simpl. unfold dot_terms.
  induction (terms e) as [|t ts IH]; simpl.
  - rewrite ?sum_nil; lia.
  - rewrite !sum_cons. lia.
Qed.

Lemma eval_var v s : eval (var_expr v) s = value s v.
Proof. unfold eval, var_expr. cbn [terms constant fold_right fst snd]. lia. Qed.

Lemma eval_minus e1 e2 s : eval (minus e1 e2) s = eval e1 s - eval e2 s.
Proof. unfold minus. rewrite eval_plus, eval_scale. lia. Qed.

Lemma den_py_add a b s : den (py_add a b) s = den a s + den b s.
Proof.
  destruct a as [x|e1], b as [y|e2]; simpl; rewrite ?eval_plus; unfold eval; simpl; lia.
Qed.

Lemma den_py_mul v c s : den (py_mul v c) s = c * value s v.
Proof. unfold py_mul. simpl. now rewrite eval_scale, eval_var. Qed.

Lemma den_py_sum vs s : den (py_sum vs) s = sum (map (value s) vs).
Proof.
  unfold py_sum.
  assert (H : forall acc, den (fold_left (fun acc v => py_add acc (Expr (var_expr v))) vs acc) s
                          = den acc s + sum (map (value s) vs)).
  { induction vs as [|v vs IH]; intros acc; simpl.
    - rewrite ?sum_nil; lia.
    - rewrite IH, den_py_add, sum_cons. simpl. rewrite eval_var. lia. }
  rewrite H. simpl. lia.
Qed.

Lemma den_np_dot row times s :
  den (np_dot row times) s
  = sum (map (fun vc => snd vc * value s (fst vc)) (combine row times)).
Proof.
  unfold np_dot. destruct (combine row times) as [|[v c] rest]; [reflexivity|].
  simpl map. rewrite sum_cons. rewrite <- (den_py_mul v c s).
  generalize (py_mul v c). induction rest as [|[v' c'] rest IH]; intros acc; simpl.
  - rewrite ?sum_nil; lia.
  - rewrite IH, den_py_add, sum_cons, den_py_mul. simpl. lia.
Qed.

(** The constraint stored for [a == b] holds exactly when both sides denote
    the same number. *)
Lemma holds_py_eq a b s :
  holds s (constraint_of (py_eq a b)) = (den a s =? den b s).
Proof.
  destruct a as [x|e1], b as [y|e2]; unfold py_eq; simpl.
  - destruct (x =? y); reflexivity.
  - destruct (Z.eqb_spec x (eval e2 s)) as [->|Hne].
    + now rewrite Z.leb_refl.
    + destruct (Z.leb_spec x (eval e2 s)), (Z.leb_spec (eval e2 s) x); simpl; try reflexivity; lia.
  - destruct (Z.eqb_spec (eval e1 s) y) as [<-|Hne].
    + now rewrite Z.leb_refl.
    + destruct (Z.leb_spec y (eval e1 s)), (Z.leb_spec (eval e1 s) y); simpl; try reflexivity; lia.
  - rewrite eval_minus.
    destruct (Z.eqb_spec (eval e1 s) (eval e2 s)) as [->|Hne].
    + now rewrite Z.sub_diag.
    + destruct (Z.leb_spec 0 (eval e1 s - eval e2 s)),
               (Z.leb_spec (eval e1 s - eval e2 s) 0); simpl; try reflexivity; lia.
Qed.

Lemma holds_cover M N j s :
  holds s (cover M N j)
  = (sum (map (fun i => value s (x_var N i j)) (seq 0 M)) =? 1).
Proof.
  unfold cover. rewrite holds_py_eq, den_py_sum, map_map. reflexivity.
Qed.

Lemma holds_load_def M times i s :
  holds s (load_def M (length times) times i)
  = (value s (load_var M (length times) i)
     =? wsum (fun v t => t * value s v) (i * length times) times).
Proof.
  unfold load_def. rewrite holds_py_eq, den_np_dot. simpl. rewrite eval_var.
  reflexivity.
Qed.

(** *** Domains *)

Lemma domains_ok_length xs : forall s, domains_ok xs s = true -> length s = length xs.
Proof.
  induction xs as [|x xs IH]; intros [|z s] H; simpl in *; try discriminate; auto.
  apply andb_prop in H as [_ H]. f_equal. now apply IH.
Qed.

Lemma domains_ok_nth xs : forall s k x,
  domains_ok xs s = true -> nth_error xs k = Some x ->
  in_domain x (value s k) = true.
Proof.
  induction xs as [|y xs IH]; intros [|z s] k x H Hk; simpl in *; try discriminate.
  - destruct k; discriminate.
  - apply andb_prop in H as [Hz H]. destruct k as [|k]; simpl in *.
    + now injection Hk as <-.
    + apply (IH s k x H Hk).
Qed.

Lemma domains_ok_app xs1 xs2 : forall s1 s2,
  domains_ok xs1 s1 = true -> domains_ok xs2 s2 = true ->
  domains_ok (xs1 ++ xs2) (s1 ++ s2) = true.
Proof.
  induction xs1 as [|x xs1 IH]; intros [|z s1] s2 H1 H2; simpl in *; try discriminate; auto.
  apply andb_prop in H1 as [Hz H1]. rewrite Hz. simpl. now apply IH.
Qed.

Lemma domains_ok_map {A} (f : A -> IntegerVariable) (g : A -> Z) (l : list A) :
  (forall a, In a l -> in_domain (f a) (g a) = true) ->
  domains_ok (map f l) (map g l) = true.
Proof.
  induction l as [|a l IH]; intros H; simpl; [reflexivity|].
  rewrite (H a (or_introl eq_refl)). simpl. apply IH. intros; apply H; now right.
Qed.

Lemma domains_ok_flat_map {A} (F : A -> list IntegerVariable) (G : A -> list Z) l :
  (forall a, In a l -> domains_ok (F a) (G a) = true) ->
  domains_ok (flat_map F l) (flat_map G l) = true.
Proof.
  induction l as [|a l IH]; intros H; simpl; [reflexivity|].
  apply domains_ok_app; [apply H; now left|]. apply IH. intros; apply H; now right.
Qed.

End Semantics.

(** ** The model encodes the scheduling problem *)

Module Encoding.
Import CpSat Model Problem Correspondence Sums Semantics.

Lemma load_wsum times asg i :
  load times asg i = wsum (fun j t => if (asg j =? i)%nat then t else 0) 0 times.
Proof. reflexivity. Qed.

Lemma nth_error_flat_rows {A} (f : nat -> nat -> A) (N : nat) : forall len a i j,
  (a <= i < a + len)%nat -> (j < N)%nat ->
  nth_error (flat_map (fun i => map (f i) (seq 0 N)) (seq a len)) ((i - a) * N + j)
  = Some (f i j).
Proof.
  induction len as [|len IH]; intros a i j Hi Hj; [lia|].
  simpl. destruct (Nat.eq_dec i a) as [->|Hne].
  - rewrite Nat.sub_diag. simpl.
    rewrite nth_error_app1 by now rewrite length_map, length_seq.
    rewrite nth_error_map, nth_error_seq.
    destruct (Nat.ltb_spec j N); [reflexivity|lia].
  - rewrite nth_error_app2 by (rewrite length_map, length_seq; nia).
    rewrite length_map, length_seq.
    replace ((i - a) * N + j - N)%nat with ((i - S a) * N + j)%nat by nia.
    apply IH; lia.
Qed.

(** The variables of the model, by index. *)
Lemma variables_x times M i j :
  (i < M)%nat -> (j < length times)%nat ->
  nth_error (variables (model_of times M)) (x_var (length times) i j)
  = Some (mk_var (Scheduler.job_name i j) 0 1).
Proof.
  intros Hi Hj. unfold model_of, x_var. simpl.
  rewrite nth_error_app1 by (rewrite BuildFacts.length_flat_rows; nia).
  replace (i * length times + j)%nat with ((i - 0) * length times + j)%nat
    by now rewrite Nat.sub_0_r.
  apply (nth_error_flat_rows (fun i j => mk_var (Scheduler.job_name i j) 0 1)); lia.
Qed.

Lemma length_variables times M :
  length (variables (model_of times M)) = (M * length times + M + 1)%nat.
Proof.
  unfold model_of. simpl.
  rewrite !length_app, BuildFacts.length_flat_rows, length_map, length_seq.
  simpl. lia.
Qed.

Lemma objective_model times M s :
  objective_of (model_of times M) s = value s (makespan_var M (length times)).
Proof. unfold objective_of, model_of. simpl. apply eval_var. Qed.

Lemma seq_shift_map (a len : nat) : seq a len = map (fun i => (a + i)%nat) (seq 0 len).
Proof.
  revert a. induction len as [|len IH]; intros a; simpl; [reflexivity|].
  rewrite Nat.add_0_r. f_equal. rewrite (IH (S a)), (IH 1%nat), map_map.
  apply map_ext. intros i. lia.
Qed.

Lemma feasible_sound times M s :
  is_feasible (model_of times M) s = true -> Sound times M s.
Proof.
  unfold is_feasible. intros H. apply andb_prop in H as [Hdom Hcs].
  pose proof (domains_ok_length _ _ Hdom) as Hlen. rewrite length_variables in Hlen.
  unfold model_of in Hcs. simpl in Hcs.
  rewrite !forallb_app in Hcs.
  apply andb_prop in Hcs as [Hcover Hcs]. apply andb_prop in Hcs as [Hload Hmax].
  rewrite forallb_forall in Hcover, Hload.
  split.
  - exact Hlen.
  - intros i j Hi Hj.
    pose proof (domains_ok_nth _ _ _ _ Hdom (variables_x times M i j Hi Hj)) as Hd.
    unfold in_domain, mk_var in Hd. simpl in Hd.
    apply andb_prop in Hd as [H0 H1]. apply Z.leb_le in H0, H1. lia.
  - intros j Hj.
    specialize (Hcover (cover M (length times) j)).
    rewrite holds_cover in Hcover. apply Z.eqb_eq, Hcover.
    apply in_map, in_seq. lia.
  - intros i Hi.
    specialize (Hload (load_def M (length times) times i)).
    rewrite holds_load_def in Hload. apply Z.eqb_eq, Hload.
    apply in_map, in_seq. lia.
  - simpl in Hmax. rewrite andb_true_r in Hmax.
    rewrite (seq_shift_map (M * length times) M), map_map in Hmax.
    unfold load_var, makespan_var.
    destruct (maximum _) as [mx|]; [|discriminate].
    apply Z.eqb_eq in Hmax. unfold makespan_var in Hmax. now rewrite Hmax.
Qed.

(** *** From a feasible valuation to an assignment *)

Lemma zero_sum (b : nat -> Z) : forall M,
  (forall i, (i < M)%nat -> b i = 0 \/ b i = 1) ->
  0 <= sum (map b (seq 0 M))
  /\ (sum (map b (seq 0 M)) = 0 -> forall i, (i < M)%nat -> b i = 0).
Proof.
  induction M as [|M IH]; intros Hb.
  - split; [simpl; rewrite sum_nil; lia | intros _ i Hi; lia].
  - rewrite seq_S, map_app, sum_app. simpl. rewrite sum_cons, sum_nil.
    destruct IH as [IH0 IH1]; [intros; apply Hb; lia|].
    destruct (Hb M) as [HM|HM]; [lia| |]; rewrite HM.
    + split; [lia|]. intros Hs i Hi.
      destruct (Nat.eq_dec i M) as [->|]; [assumption|]. apply IH1; lia.
    + split; lia.
Qed.

(** Boolean values that add up to one: exactly one of them is one. *)
Lemma exactly_one (b : nat -> Z) : forall M,
  (forall i, (i < M)%nat -> b i = 0 \/ b i = 1) ->
  sum (map b (seq 0 M)) = 1 ->
  exists i0, (i0 < M)%nat /\ b i0 = 1
             /\ forall i, (i < M)%nat -> i <> i0 -> b i = 0.
Proof.
  induction M as [|M IH]; intros Hb Hs.
  - simpl in Hs. rewrite sum_nil in Hs. lia.
  - rewrite seq_S, map_app, sum_app in Hs. simpl in Hs.
    rewrite sum_cons, sum_nil in Hs.
    destruct (zero_sum b M) as [H0 Hz]; [intros; apply Hb; lia|].
    destruct (Hb M) as [HM|HM]; [lia| |].
    + destruct IH as (i0 & Hi0 & Hb0 & Hothers); [intros; apply Hb; lia|lia|].
      exists i0. repeat split; [lia|assumption|]. intros i Hi Hne.
      destruct (Nat.eq_dec i M) as [->|]; [assumption|]. apply Hothers; lia.
    + exists M. repeat split; [lia|assumption|]. intros i Hi Hne.
      apply Hz; lia.
Qed.

Lemma machine_of_spec times M s j :
  Sound times M s -> (j < length times)%nat ->
  (machine_of s M (length times) j < M)%nat
  /\ forall i, (i < M)%nat ->
       value s (x_var (length times) i j)
       = if (machine_of s M (length times) j =? i)%nat then 1 else 0.
Proof.
  intros Hs Hj.
  destruct (exactly_one (fun i => value s (x_var (length times) i j)) M)
    as (i0 & Hi0 & Hone & Hothers).
  { intros i Hi. now apply (sound_bool _ _ _ Hs). }
  { now apply (sound_cover _ _ _ Hs). }
  assert (Hm : machine_of s M (length times) j = i0).
  { unfold machine_of.
    destruct (find _ _) as [i|] eqn:Hf.
    - apply find_some in Hf as [Hi Hv]. apply in_seq in Hi.
      destruct (Nat.eq_dec i i0) as [|Hne]; [assumption|].
      rewrite (Hothers i) in Hv by lia. discriminate.
    - pose proof (find_none _ _ Hf i0) as Hv. simpl in Hv.
      rewrite Hone in Hv. discriminate Hv. apply in_seq; lia. }
  rewrite Hm. split; [assumption|]. intros i Hi.
  destruct (Nat.eqb_spec i0 i) as [<-|Hne]; [assumption|].
  apply Hothers; [assumption|congruence].
Qed.

Lemma sound_total times M s :
  Sound times M s -> total M (length times) (machine_of s M (length times)).
Proof. intros Hs j Hj. now apply (machine_of_spec times M s j Hs). Qed.

Lemma sound_load_assignment times M s i :
  Sound times M s -> (i < M)%nat ->
  load times (machine_of s M (length times)) i
  = value s (load_var M (length times) i).
Proof.
  intros Hs Hi. rewrite (sound_load _ _ _ Hs) by assumption. rewrite load_wsum.
  apply wsum_ext. intros k Hk. simpl.
  destruct (machine_of_spec times M s k Hs Hk) as [_ Hx].
  unfold x_var in Hx. rewrite (Hx i Hi).
  destruct (_ =? _)%nat; lia.
Qed.

Lemma sound_makespan times M s :
  Sound times M s ->
  makespan times M (machine_of s M (length times))
  = value s (makespan_var M (length times)).
Proof.
  intros Hs. unfold makespan.
  rewrite (map_ext_in _ (fun i => value s (load_var M (length times) i))).
  - now rewrite (sound_max _ _ _ Hs).
  - intros i Hi. apply in_seq in Hi. apply sound_load_assignment; [assumption|lia].
Qed.

(** *** From an assignment to a feasible valuation *)

Lemma value_nth_error s k z : nth_error s k = Some z -> value s k = z.
Proof. intros H. unfold value. now apply nth_error_nth. Qed.

Lemma valuation_x times M asg i j :
  (i < M)%nat -> (j < length times)%nat ->
  value (valuation times M asg) (x_var (length times) i j)
  = if (asg j =? i)%nat then 1 else 0.
Proof.
  intros Hi Hj. apply value_nth_error. unfold valuation, x_var.
  rewrite nth_error_app1 by (rewrite BuildFacts.length_flat_rows; nia).
  replace (i * length times + j)%nat with ((i - 0) * length times + j)%nat
    by now rewrite Nat.sub_0_r.
  apply (nth_error_flat_rows (fun i j => if (asg j =? i)%nat then 1 else 0)); lia.
Qed.

Lemma valuation_load times M asg i :
  (i < M)%nat ->
  value (valuation times M asg) (load_var M (length times) i) = load times asg i.
Proof.
  intros Hi. apply value_nth_error. unfold valuation, load_var.
  rewrite nth_error_app2 by (rewrite BuildFacts.length_flat_rows; lia).
  rewrite BuildFacts.length_flat_rows.
  replace (M * length times + i - M * length times)%nat with i by lia.
  rewrite nth_error_app1 by now rewrite length_map, length_seq.
  rewrite nth_error_map, nth_error_seq.
  destruct (Nat.ltb_spec i M); [reflexivity|lia].
Qed.

Lemma valuation_makespan times M asg :
  value (valuation times M asg) (makespan_var M (length times))
  = makespan times M asg.
Proof.
  apply value_nth_error. unfold valuation, makespan_var.
  rewrite nth_error_app2 by (rewrite BuildFacts.length_flat_rows; lia).
  rewrite BuildFacts.length_flat_rows.
  replace (M * length times + M - M * length times)%nat with M by lia.
  rewrite nth_error_app2 by (rewrite length_map, length_seq; lia).
  rewrite length_map, length_seq, Nat.sub_diag. reflexivity.
Qed.

Lemma wsum_zero : forall times a, wsum (fun _ _ => 0) a times = 0.
Proof.
  induction times as [|t times IH]; intros a; [reflexivity|].
  now rewrite wsum_cons, IH.
Qed.

Lemma nonneg_nth times k :
  Forall (fun t => 0 <= t) times -> 0 <= nth k times 0.
Proof.
  intros H. destruct (Nat.lt_ge_cases k (length times)) as [Hk|Hk].
  - rewrite Forall_forall in H. apply H, nth_In, Hk.
  - rewrite nth_overflow by assumption. lia.
Qed.

(** With durations that are not negative, a load lies between [0] and the
    sum of all durations. *)
Lemma load_bounds times asg i :
  Forall (fun t => 0 <= t) times -> 0 <= load times asg i <= sum times.
Proof.
  intros Hpos. rewrite load_wsum. split.
  - pose proof (wsum_le (fun _ _ => 0)
                  (fun j t => if (asg j =? i)%nat then t else 0) times 0) as H.
    rewrite wsum_zero in H. apply H. intros k Hk.
    pose proof (nonneg_nth times k Hpos). destruct (_ =? _)%nat; lia.
  - pose proof (wsum_le (fun j t => if (asg j =? i)%nat then t else 0)
                  (fun _ t => t) times 0) as H.
    rewrite wsum_snd in H. apply H. intros k Hk.
    pose proof (nonneg_nth times k Hpos). destruct (_ =? _)%nat; lia.
Qed.

Lemma makespan_is_load times M asg :
  (0 < M)%nat -> exists i, (i < M)%nat /\ makespan times M asg = load times asg i.
Proof.
  intros HM. unfold makespan.
  destruct (maximum_some (map (load times asg) (seq 0 M))) as [mx Hmx].
  { destruct M; [lia|]. discriminate. }
  rewrite Hmx. apply maximum_in in Hmx. apply in_map_iff in Hmx as (i & Hi & Hin).
  apply in_seq in Hin. exists i. split; [lia|now symmetry].
Qed.

Lemma makespan_upper times M asg i :
  (i < M)%nat -> load times asg i <= makespan times M asg.
Proof.
  intros Hi. unfold makespan.
  destruct (maximum_some (map (load times asg) (seq 0 M))) as [mx Hmx].
  { destruct M; [lia|]. discriminate. }
  rewrite Hmx. apply (maximum_upper _ _ _ Hmx). apply in_map, in_seq. lia.
Qed.

Lemma indicator_sum (a : nat) : forall M,
  sum (map (fun i => if (a =? i)%nat then 1 else 0) (seq 0 M))
  = if (a <? M)%nat then 1 else 0.
Proof.
  induction M as [|M IH]; [reflexivity|].
  rewrite seq_S, map_app, sum_app, IH. simpl. rewrite sum_cons, sum_nil.
  destruct (Nat.ltb_spec a M), (Nat.ltb_spec a (S M)), (Nat.eqb_spec a M); lia.
Qed.

Lemma valuation_feasible times M asg :
  (0 < M)%nat -> Forall (fun t => 0 <= t) times ->
  total M (length times) asg ->
  is_feasible (model_of times M) (valuation times M asg) = true.
Proof.
  intros HM Hpos Htot. unfold is_feasible. apply andb_true_intro. split.
  - unfold model_of, valuation. simpl.
    apply domains_ok_app; [|apply domains_ok_app].
    + apply domains_ok_flat_map. intros i _. apply domains_ok_map. intros j _.
      unfold in_domain. simpl. destruct (_ =? _)%nat; reflexivity.
    + apply domains_ok_map. intros i _. unfold in_domain. simpl.
      pose proof (load_bounds times asg i Hpos).
      apply andb_true_intro. split; apply Z.leb_le; lia.
    + simpl. rewrite andb_true_r. unfold in_domain. simpl.
      destruct (makespan_is_load times M asg HM) as (i & _ & ->).
      pose proof (load_bounds times asg i Hpos).
      apply andb_true_intro. split; apply Z.leb_le; lia.
  - unfold model_of. simpl. rewrite !forallb_app.
    repeat (apply andb_true_intro; split).
    + apply forallb_forall. intros c Hc. apply in_map_iff in Hc as (j & <- & Hj).
      apply in_seq in Hj. rewrite holds_cover. apply Z.eqb_eq.
      rewrite (sum_map_ext _ (fun i => if (asg j =? i)%nat then 1 else 0)).
      * rewrite indicator_sum. specialize (Htot j).
        destruct (Nat.ltb_spec (asg j) M); lia.
      * intros i Hi. apply in_seq in Hi. apply valuation_x; lia.
    + apply forallb_forall. intros c Hc. apply in_map_iff in Hc as (i & <- & Hi).
      apply in_seq in Hi. rewrite holds_load_def. apply Z.eqb_eq.
      rewrite valuation_load by lia. rewrite load_wsum.
      apply wsum_ext. intros k Hk. simpl.
      pose proof (valuation_x times M asg i k) as Hx. unfold x_var in Hx.
      rewrite Hx by lia. destruct (_ =? _)%nat; lia.
    + unfold holds.
      rewrite (seq_shift_map (M * length times) M), map_map.
      rewrite (map_ext_in _ (load times asg)).
      * rewrite valuation_makespan.
        unfold makespan.
        destruct (maximum_some (map (load times asg) (seq 0 M))) as [mx Hmx].
        { destruct M; [lia|]. discriminate. }
        rewrite Hmx. apply Z.eqb_refl.
      * intros i Hi. apply in_seq in Hi.
        apply (valuation_load times M asg i). lia.
    + reflexivity.
Qed.

End Encoding.

(** ** The reference solver meets the contract *)

Module ReferenceFacts.
Import CpSat ReferenceSolver.

Lemma in_domain_values x z :
  In z (domain_values x) <-> in_domain x z = true.
Proof.
  unfold domain_values, in_domain. rewrite in_map_iff. split.
  - intros (k & <- & Hk). apply in_seq in Hk.
    apply andb_true_intro. split; apply Z.leb_le; lia.
  - intros H. apply andb_prop in H as [H1 H2]. apply Z.leb_le in H1, H2.
    exists (Z.to_nat (z - var_lb x)). split; [lia|]. apply in_seq. lia.
Qed.

Lemma in_all_valuations xs : forall s,
  In s (all_valuations xs) <-> domains_ok xs s = true.
Proof.
  induction xs as [|x xs IH]; intros s; simpl.
  - destruct s; split; intros H; try discriminate; auto.
    destruct H as [H|[]]; discriminate.
  - rewrite in_flat_map. split.
    + intros (z & Hz & Hs). apply in_map_iff in Hs as (s' & <- & Hs').
      apply in_domain_values in Hz. apply IH in Hs'. now rewrite Hz, Hs'.
    + destruct s as [|z s']; [discriminate|]. intros H.
      apply andb_prop in H as [Hz Hs']. exists z. split.
      * now apply in_domain_values.
      * apply in_map, IH, Hs'.
Qed.

Lemma best_none cost cands : best cost cands = None -> cands = [].
Proof.
  destruct cands as [|s cands]; [reflexivity|]. simpl.
  destruct (best cost cands) as [s'|]; [destruct (_ <? _)|]; discriminate.
Qed.

Lemma best_some cost : forall cands s,
  best cost cands = Some s ->
  In s cands /\ forall s', In s' cands -> cost s <= cost s'.
Proof.
  induction cands as [|c cands IH]; intros s H; [discriminate|].
  simpl in H. destruct (best cost cands) as [b|] eqn:Hb.
  - destruct (IH b eq_refl) as [Hin Hmin].
    destruct (Z.ltb_spec (cost b) (cost c)); injection H as <-.
    + split; [now right|]. intros s' [<-|Hs']; [lia|now apply Hmin].
    + split; [now left|]. intros s' [<-|Hs']; [lia|].
      specialize (Hmin s' Hs'). lia.
  - injection H as <-. apply best_none in Hb. subst cands.
    split; [now left|]. intros s' [<-|[]]. lia.
Qed.

Lemma in_solutions m s :
  In s (filter (fun s => forallb (holds s) (constraints m))
               (all_valuations (variables m)))
  <-> is_feasible m s = true.
Proof.
  rewrite filter_In, in_all_valuations. unfold is_feasible.
  rewrite andb_true_iff. reflexivity.
Qed.

Lemma Solve_with_conforming (order : list (list Z) -> list (list Z)) :
  (forall l s, In s (order l) <-> In s l) -> Conforming (Solve_with order).
Proof.
  intros Horder m. unfold Solve_with.
  destruct (best _ _) as [s|] eqn:Hb.
  - apply best_some in Hb as [Hin Hmin].
    apply Horder, in_solutions in Hin. apply Solved; [assumption|].
    intros s' Hs'. apply Hmin, Horder, in_solutions, Hs'.
  - apply best_none in Hb. apply NoSolution; [|now left].
    intros s. destruct (is_feasible m s) eqn:Hs; [|reflexivity].
    apply in_solutions, Horder in Hs. rewrite Hb in Hs. destruct Hs.
Qed.

Lemma Solve_conforming : Conforming Solve.
Proof. apply Solve_with_conforming. intros l s. reflexivity. Qed.

Lemma Solve_last_conforming : Conforming Solve_last.
Proof. apply Solve_with_conforming. intros l s. symmetry. apply in_rev. Qed.

End ReferenceFacts.

(** ** Running [schedule] *)

Module Run.
Import CpSat Model Problem Correspondence Sums Semantics Encoding.

Lemma combine_map_r {A B} (f : A -> B) (l : list A) :
  combine l (map f l) = map (fun a => (a, f a)) l.
Proof. induction l as [|a l IH]; simpl; [reflexivity|now rewrite IH]. Qed.

Lemma enumerate_seq (a N : nat) :
  enumerate (seq a N) = map (fun j => (j, (a + j)%nat)) (seq 0 N).
Proof.
  unfold enumerate. rewrite length_seq, (seq_shift_map a N).
  apply combine_map_r.
Qed.

Lemma enumerate_rows (M N : nat) :
  enumerate (rows M N) = map (fun i => (i, seq (i * N) N)) (seq 0 M).
Proof.
  unfold enumerate, rows. rewrite length_map, length_seq.
  apply combine_map_r.
Qed.

Lemma Value_in_range r v :
  (v < length (solution r))%nat -> Value r v = Some (value (solution r) v).
Proof. intros Hv. unfold Value, value. now apply nth_error_nth'. Qed.

Lemma scheduled_in_run r a : forall js,
  (forall j, In j js -> (a + j < length (solution r))%nat) ->
  Scheduler.scheduled_in r (map (fun j => (j, (a + j)%nat)) js)
  = py_ret (filter (fun j => negb (value (solution r) (a + j)%nat =? 0)) js).
Proof.
  induction js as [|j js IH]; intros H; simpl; [reflexivity|].
  rewrite Value_in_range by (apply H; now left).
  rewrite IH by (intros; apply H; now right).
  unfold lift_option, py_bind, py_ret. simpl.
  destruct (_ =? 0); reflexivity.
Qed.

Lemma py_for_print {A} (line : A -> Line) (body : A -> Py unit) : forall xs,
  (forall x, In x xs -> body x = print (line x)) ->
  py_for xs body = (map line xs, Returned tt).
Proof.
  induction xs as [|x xs IH]; intros H; simpl; [reflexivity|].
  rewrite (H x (or_introl eq_refl)), IH by (intros; apply H; now right).
  reflexivity.
Qed.

Lemma scheduled_in_ext r1 r2 : solution r1 = solution r2 ->
  forall row, Scheduler.scheduled_in r1 row = Scheduler.scheduled_in r2 row.
Proof.
  intros Hsol. induction row as [|[index job] row IH]; simpl; [reflexivity|].
  unfold Value. now rewrite Hsol, IH.
Qed.

Lemma py_for_ext {A} (body1 body2 : A -> Py unit) :
  (forall x, body1 x = body2 x) ->
  forall xs, py_for xs body1 = py_for xs body2.
Proof.
  intros H. induction xs as [|x xs IH]; simpl; [reflexivity|].
  now rewrite H, IH.
Qed.

(** [_print_results] reads the objective value and the solution only. *)
Lemma print_results_ext r1 r2 jobs :
  solution r1 = solution r2 -> objective_value r1 = objective_value r2 ->
  Scheduler._print_results r1 jobs = Scheduler._print_results r2 jobs.
Proof.
  intros Hsol Hobj.
  pose proof (py_for_ext
    (fun ir : nat * list IntVar =>
       py_bind (Scheduler.scheduled_in r1 (enumerate (snd ir)))
               (fun scheduled => print (PrintMachine (fst ir) scheduled)))
    (fun ir : nat * list IntVar =>
       py_bind (Scheduler.scheduled_in r2 (enumerate (snd ir)))
               (fun scheduled => print (PrintMachine (fst ir) scheduled)))) as E.
  unfold Scheduler._print_results, ObjectiveValue.
  unfold py_bind at 1. unfold py_bind at 2.
  unfold print at 1. unfold print at 2.
  rewrite E, Hobj; [reflexivity|].
  intros ir. now rewrite (scheduled_in_ext r1 r2 Hsol).
Qed.

(** [_print_results] on a response that holds a value for every variable. *)
Lemma print_results_run r M N :
  (M * N <= length (solution r))%nat ->
  Scheduler._print_results r (rows M N)
  = (PrintMakespan (ObjectiveValue r) :: machine_lines (solution r) M N,
     Returned tt).
Proof.
  intros Hlen. unfold Scheduler._print_results.
  rewrite enumerate_rows.
  rewrite (py_for_print (fun ir => PrintMachine (fst ir) (scheduled (solution r) N (fst ir)))).
  - unfold machine_lines. rewrite map_map. reflexivity.
  - intros [i row] Hin. apply in_map_iff in Hin as (i' & [= <- <-] & Hi).
    apply in_seq in Hi. simpl. rewrite enumerate_seq, scheduled_in_run.
    + reflexivity.
    + intros j Hj. apply in_seq in Hj. nia.
Qed.

(** The run of [schedule], given the solver's response to the model. *)
Lemma schedule_run Solve times n_machines :
  let M := Z.to_nat n_machines in
  let r := Solve (model_of times M) in
  (M * length times <= length (solution r))%nat ->
  schedule Solve times n_machines
  = (PrintMakespan (ObjectiveValue r) :: machine_lines (solution r) M (length times),
     Returned (ObjectiveValue r)).
Proof.
  intros M r Hlen. unfold schedule, Scheduler.schedule.
  rewrite BuildFacts.build_run. fold M. fold r.
  rewrite print_results_run by assumption.
  unfold py_bind, py_ret. now rewrite app_nil_r.
Qed.

Section Conforming.

Variable Solve : CpModel -> CpSolverResponse.
Hypothesis Solve_conforms : Conforming Solve.

(** On valid input the solver answers with an optimal solution. *)
Lemma solve_valid times M :
  (0 < M)%nat -> Forall (fun t => 0 <= t) times ->
  exists s,
    Solve (model_of times M)
    = {| status := OPTIMAL;
         objective_value := value s (makespan_var M (length times));
         solution := s |}
    /\ Sound times M s
    /\ forall asg, total M (length times) asg ->
         value s (makespan_var M (length times)) <= makespan times M asg.
Proof.
  intros HM Hpos. destruct (Solve_conforms (model_of times M)) as [s Hs Hmin|st Hnone _].
  - exists s. rewrite objective_model in *. split; [reflexivity|].
    split; [now apply feasible_sound|]. intros asg Htot.
    specialize (Hmin _ (valuation_feasible times M asg HM Hpos Htot)).
    now rewrite !objective_model, valuation_makespan in Hmin.
  - specialize (Hnone (valuation times M (fun _ => 0%nat))).
    rewrite valuation_feasible in Hnone; [discriminate|assumption..|].
    intros j _. exact HM.
Qed.

(** The run of [schedule] on valid input: it prints the makespan and one
    line per machine, and returns the least makespan. *)
Lemma schedule_valid times n_machines :
  1 <= n_machines -> Forall (fun t => 0 <= t) times ->
  let M := Z.to_nat n_machines in
  exists s,
    Sound times M s
    /\ Solve (model_of times M)
       = {| status := OPTIMAL;
            objective_value := makespan times M (machine_of s M (length times));
            solution := s |}
    /\ schedule Solve times n_machines
       = (PrintMakespan (makespan times M (machine_of s M (length times)))
            :: machine_lines s M (length times),
          Returned (makespan times M (machine_of s M (length times))))
    /\ optimal_makespan times M (makespan times M (machine_of s M (length times))).
Proof.
  intros Hnm Hpos M.
  destruct (solve_valid times M) as (s & Hr & Hs & Hmin); [lia|assumption|].
  exists s. rewrite (sound_makespan _ _ _ Hs).
  split; [assumption|]. split; [assumption|]. split.
  - pose proof (schedule_run Solve times n_machines) as Hrun. simpl in Hrun.
    fold M in Hrun. rewrite Hr in Hrun. simpl in Hrun. apply Hrun.
    rewrite (sound_length _ _ _ Hs). lia.
  - split; [|assumption].
    exists (machine_of s M (length times)). split.
    + now apply sound_total.
    + now apply sound_makespan.
Qed.

End Conforming.

End Run.

(** ** Properties of the least makespan *)

Module Optimum.
Import CpSat Problem Correspondence Sums Encoding.

Lemma optimal_makespan_unique times M v1 v2 :
  optimal_makespan times M v1 -> optimal_makespan times M v2 -> v1 = v2.
Proof.
  intros [(a1 & Ht1 & <-) Hmin1] [(a2 & Ht2 & <-) Hmin2].
  specialize (Hmin1 a2 Ht2). specialize (Hmin2 a1 Ht1). lia.
Qed.

Lemma total_more_machines M N asg : total M N asg -> total (S M) N asg.
Proof. intros H j Hj. specialize (H j Hj). lia. Qed.

Lemma total_fewer_jobs M N asg : total M (S N) asg -> total M N asg.
Proof. intros H j Hj. apply H. lia. Qed.

(** A machine no job is assigned to has load [0]. *)
Lemma load_unused times M asg :
  total M (length times) asg -> load times asg M = 0.
Proof.
  intros Htot. rewrite load_wsum.
  rewrite (wsum_ext _ (fun _ _ => 0) times 0 0); [apply wsum_zero|].
  intros k Hk. simpl. specialize (Htot k Hk).
  destruct (Nat.eqb_spec (asg k) M); [lia|reflexivity].
Qed.

(** One more machine does not raise the makespan of an assignment. *)
Lemma makespan_more_machines times M asg :
  (0 < M)%nat -> Forall (fun t => 0 <= t) times ->
  total M (length times) asg ->
  makespan times (S M) asg <= makespan times M asg.
Proof.
  intros HM Hpos Htot.
  destruct (makespan_is_load times (S M) asg) as (i & Hi & ->); [lia|].
  destruct (Nat.eq_dec i M) as [->|Hne].
  - rewrite load_unused by assumption.
    pose proof (load_bounds times asg 0 Hpos).
    pose proof (makespan_upper times M asg 0 HM). lia.
  - apply makespan_upper. lia.
Qed.

Lemma load_app times t asg i :
  load (times ++ [t]) asg i
  = load times asg i + (if (asg (length times) =? i)%nat then t else 0).
Proof. rewrite !load_wsum, wsum_app. reflexivity. Qed.

(** One more job, of a duration that is not negative, does not lower the
    makespan of an assignment. *)
Lemma makespan_more_jobs times t M asg :
  (0 < M)%nat -> 0 <= t ->
  makespan times M asg <= makespan (times ++ [t]) M asg.
Proof.
  intros HM Ht.
  destruct (makespan_is_load times M asg HM) as (i & Hi & ->).
  pose proof (makespan_upper (times ++ [t]) M asg i Hi) as Hup.
  rewrite load_app in Hup. destruct (_ =? _)%nat; lia.
Qed.

Lemma optimal_more_machines times M v v' :
  (0 < M)%nat -> Forall (fun t => 0 <= t) times ->
  optimal_makespan times M v -> optimal_makespan times (S M) v' -> v' <= v.
Proof.
  intros HM Hpos [(asg & Htot & <-) _] [_ Hmin'].
  specialize (Hmin' asg (total_more_machines _ _ _ Htot)).
  pose proof (makespan_more_machines times M asg HM Hpos Htot). lia.
Qed.

Lemma optimal_more_jobs times t M v v' :
  (0 < M)%nat -> 0 <= t ->
  optimal_makespan times M v -> optimal_makespan (times ++ [t]) M v' -> v <= v'.
Proof.
  intros HM Ht [_ Hmin] [(asg & Htot & <-) _].
  rewrite length_app, Nat.add_1_r in Htot.
  specialize (Hmin asg (total_fewer_jobs _ _ _ Htot)).
  pose proof (makespan_more_jobs times t M asg HM Ht). lia.
Qed.



Lemma wsum_seq f : forall times a,
  wsum f a times
  = sum (map (fun j => f (a + j)%nat (nth j times 0)) (seq 0 (length times))).
Proof.
  induction times as [|t times IH]; intros a; [reflexivity|].
  rewrite wsum_cons, IH. simpl. rewrite sum_cons, Nat.add_0_r. f_equal.
  rewrite <- seq_shift, map_map. f_equal. apply map_ext. intros j.
  now rewrite Nat.add_succ_r.
Qed.

Lemma sum_filter {A} (p : A -> bool) (f : A -> Z) (l : list A) :
  sum (map f (filter p l)) = sum (map (fun a => if p a then f a else 0) l).
Proof.
  induction l as [|a l IH]; simpl; [reflexivity|].
  destruct (p a); simpl; rewrite ?sum_cons, IH; lia.
Qed.

(** The load variable of machine [i] holds the durations of the jobs the
    valuation schedules on it. *)
Lemma sound_load_scheduled times M s i :
  Sound times M s -> (i < M)%nat ->
  jobs_load times
    (filter (fun j => negb (value s (Model.x_var (length times) i j) =? 0))
            (seq 0 (length times)))
  = value s (Model.load_var M (length times) i).
Proof.
  intros Hs Hi. rewrite (sound_load _ _ _ Hs) by assumption.
  unfold jobs_load. rewrite sum_filter, wsum_seq.
  apply sum_map_ext. intros j Hj. apply in_seq in Hj.
  destruct (sound_bool _ _ _ Hs i j Hi) as [Hv|Hv]; [lia| |];
    unfold Model.x_var in *; rewrite Hv; simpl; lia.
Qed.

End Optimum.

(** What [schedule] builds and prints, in terms of the closed form. *)

Module Bridge.
Import CpSat Model Correspondence Encoding Run.

Lemma jobs_built_rows times nm :
  jobs_built times nm = rows (Z.to_nat nm) (length times).
Proof. unfold jobs_built. now rewrite BuildFacts.build_run. Qed.

Lemma model_built_closed times nm :
  model_built times nm = model_of times (Z.to_nat nm).
Proof. unfold model_built. now rewrite BuildFacts.build_run. Qed.

Lemma assigned_jobs_scheduled Solve times nm i :
  let M := Z.to_nat nm in
  let s := solution (Solve (model_of times M)) in
  (M * length times <= length s)%nat -> (i < M)%nat ->
  assigned_jobs Solve times nm i = scheduled s (length times) i.
Proof.
  intros M s Hlen Hi. unfold assigned_jobs, scheduled, solver_after.
  rewrite jobs_built_rows, model_built_closed. fold M.
  apply filter_ext_in. intros j Hj. apply in_seq in Hj.
  rewrite BuildFacts.item_rows by lia.
  rewrite Value_in_range; [reflexivity|]. fold s. unfold x_var. nia.
Qed.

Lemma machine_lines_assigned Solve times nm :
  let M := Z.to_nat nm in
  let s := solution (Solve (model_of times M)) in
  (M * length times <= length s)%nat ->
  machine_lines s M (length times)
  = map (fun i => PrintMachine i (assigned_jobs Solve times nm i)) (seq 0 M).
Proof.
  intros M s Hlen. unfold machine_lines. apply map_ext_in. intros i Hi.
  apply in_seq in Hi. f_equal. symmetry.
  apply assigned_jobs_scheduled; [assumption|lia].
Qed.

Lemma nonneg_of_positive times :
  Forall (fun t => 0 < t) times -> Forall (fun t => 0 <= t) times.
Proof. apply Forall_impl. intros t Ht. lia. Qed.

End Bridge.

(** ** Runs of [schedule] on the reference solver *)

Example one_machine_three_jobs :
  schedule ReferenceSolver.Solve [3; 3; 3] 1
  = ([PrintMakespan 9; PrintMachine 0 [0; 1; 2]%nat], Returned 9).
Proof. vm_compute. reflexivity. Qed.

Example three_machines_one_job :
  schedule ReferenceSolver.Solve [10] 3
  = ([PrintMakespan 10; PrintMachine 0 []; PrintMachine 1 [];
      PrintMachine 2 [0%nat]], Returned 10).
Proof. vm_compute. reflexivity. Qed.

Example two_machines_three_jobs :
  schedule ReferenceSolver.Solve [1; 2; 3] 2
  = ([PrintMakespan 3; PrintMachine 0 [2%nat]; PrintMachine 1 [0; 1]%nat],
     Returned 3).
Proof. vm_compute. reflexivity. Qed.

(** ** Properties of [schedule] *)





(** C3: on valid input the solver's assignment covers every job exactly
    once: for each job [j] exactly one machine [i] has [x[i][j] = 1]. *)
Theorem every_job_on_exactly_one_machine Solve job_times n_machines :
  Conforming Solve ->
  1 <= n_machines -> Forall (fun t => 0 < t) job_times ->
  forall j, (j < length job_times)%nat ->
  exists! i,
    (i < Z.to_nat n_machines)%nat
    /\ CpSat.Value (solver_after Solve job_times n_machines)
                   (Scheduler.item (jobs_built job_times n_machines) i j)
       = Some 1.
Proof.
  intros Hsolve Hnm Hpos j Hj.
  destruct (Run.schedule_valid Solve Hsolve job_times n_machines Hnm
              (Bridge.nonneg_of_positive _ Hpos)) as (s & Hs & Hr & _ & _).
  set (M := Z.to_nat n_machines) in *.
  assert (Hval : forall i, (i < M)%nat ->
            CpSat.Value (solver_after Solve job_times n_machines)
                        (Scheduler.item (jobs_built job_times n_machines) i j)
            = Some (if (Correspondence.machine_of s M (length job_times) j =? i)%nat
                    then 1 else 0)).
  { intros i Hi. unfold solver_after.
    rewrite Bridge.jobs_built_rows, Bridge.model_built_closed. fold M.
    rewrite BuildFacts.item_rows by assumption.
    rewrite Run.Value_in_range.
    - rewrite Hr. simpl. f_equal.
      now apply (Encoding.machine_of_spec job_times M s j Hs Hj).
    - rewrite Hr. simpl. rewrite (Correspondence.sound_length _ _ _ Hs).
      unfold Model.x_var. nia. }
  destruct (Encoding.machine_of_spec job_times M s j Hs Hj) as [Hlt _].
  exists (Correspondence.machine_of s M (length job_times) j). split.
  - split; [assumption|]. rewrite Hval by assumption. now rewrite Nat.eqb_refl.
  - intros i [Hi Hone]. rewrite Hval in Hone by assumption.
    destruct (Nat.eqb_spec (Correspondence.machine_of s M (length job_times) j) i);
      [assumption|discriminate].
Qed.

Lemma every_job_on_exactly_one_machine_witness :
  exists! i,
    (i < Z.to_nat 2)%nat
    /\ CpSat.Value (solver_after ReferenceSolver.Solve [1; 2; 3] 2)
                   (Scheduler.item (jobs_built [1; 2; 3] 2) i 1)
       = Some 1.
Proof.
  apply (every_job_on_exactly_one_machine ReferenceSolver.Solve [1; 2; 3] 2).
  - exact ReferenceFacts.Solve_conforming.
  - lia.
  - repeat constructor; lia.
  - simpl; lia.
Defined.

(** C4, as the script behaves: no error is raised for a machine count
    below one.  With no machine the run ends normally, here on four jobs. *)
Lemma no_error_without_machines :
  ~ exists e, snd (schedule ReferenceSolver.Solve [5; 5; 5; 5] 0) = Raised e.
Proof. intros [e He]. vm_compute in He. discriminate He. Qed.

(** C4, amended: with [n_machines < 1] nothing is checked and nothing is
    raised; the model has no solution, the run prints the makespan line for
    the solver's objective value [0] and returns that value. *)
Theorem schedule_without_machines Solve job_times n_machines :
  Conforming Solve -> n_machines < 1 ->
  (forall s, CpSat.is_feasible (model_built job_times n_machines) s = false)
  /\ schedule Solve job_times n_machines = ([PrintMakespan 0], Returned 0).
Proof.
  intros Hsolve Hnm.
  assert (HM : Z.to_nat n_machines = 0%nat) by lia.
  assert (Hnone : forall s, CpSat.is_feasible (Model.model_of job_times 0) s = false).
  { intros s. unfold CpSat.is_feasible, Model.model_of. simpl.
    rewrite forallb_app. simpl. now rewrite !andb_false_r. }
  split.
  - rewrite Bridge.model_built_closed, HM. exact Hnone.
  - pose proof (Run.schedule_run Solve job_times n_machines) as Hrun.
    simpl in Hrun. rewrite HM in Hrun.
    destruct (Hsolve (Model.model_of job_times 0)) as [s Hs _|st _ _].
    + now rewrite Hnone in Hs.
    + simpl in Hrun. apply Hrun. lia.
Qed.

Lemma schedule_without_machines_witness :
  (forall s, CpSat.is_feasible (model_built [5; 5; 5; 5] 0) s = false)
  /\ schedule ReferenceSolver.Solve [5; 5; 5; 5] 0 = ([PrintMakespan 0], Returned 0).
Proof.
  apply (schedule_without_machines ReferenceSolver.Solve [5; 5; 5; 5] 0).
  - exact ReferenceFacts.Solve_conforming.
  - lia.
Defined.

(** C5, as the script behaves: the returned value does not carry the
    assignment.  On two unit jobs and two machines the solver may put job 0
    on either machine, and the value returned is the same. *)
Lemma returned_value_lacks_assignment : ~ result_carries_assignment [1; 1] 2.
Proof.
  intros [read Hread].
  pose proof (Hread ReferenceSolver.Solve ReferenceFacts.Solve_conforming 1
                eq_refl 0%nat ltac:(simpl; lia)) as H1.
  pose proof (Hread ReferenceSolver.Solve_last ReferenceFacts.Solve_last_conforming 1
                eq_refl 0%nat ltac:(simpl; lia)) as H2.
  assert (E1 : assigned_jobs ReferenceSolver.Solve [1; 1] 2 0 = [1%nat])
    by (vm_compute; reflexivity).
  assert (E2 : assigned_jobs ReferenceSolver.Solve_last [1; 1] 2 0 = [0%nat])
    by (vm_compute; reflexivity).
  rewrite E1 in H1. rewrite E2 in H2. rewrite H1 in H2. discriminate H2.
Qed.

(** C5, amended: on valid input [schedule] returns one number, the solver's
    objective value; the jobs of each machine are printed, not returned, and
    no flag is returned, the solver's status being [OPTIMAL]. *)
Theorem schedule_returns_objective_value_only Solve job_times n_machines :
  Conforming Solve ->
  1 <= n_machines -> Forall (fun t => 0 < t) job_times ->
  let solver := solver_after Solve job_times n_machines in
  snd (schedule Solve job_times n_machines) = Returned (CpSat.ObjectiveValue solver)
  /\ CpSat.status solver = CpSat.OPTIMAL
  /\ forall i, (i < Z.to_nat n_machines)%nat ->
       In (PrintMachine i (assigned_jobs Solve job_times n_machines i))
          (printed (schedule Solve job_times n_machines)).
Proof.
  intros Hsolve Hnm Hpos solver.
  destruct (Run.schedule_valid Solve Hsolve job_times n_machines Hnm
              (Bridge.nonneg_of_positive _ Hpos)) as (s & Hs & Hr & Hrun & _).
  assert (Hlen : (Z.to_nat n_machines * length job_times
                  <= length (CpSat.solution
                       (Solve (Model.model_of job_times (Z.to_nat n_machines)))))%nat).
  { rewrite Hr. simpl. rewrite (Correspondence.sound_length _ _ _ Hs). lia. }
  unfold solver, solver_after. rewrite Bridge.model_built_closed, Hrun, Hr.
  split; [reflexivity|]. split; [reflexivity|].
  intros i Hi. unfold printed. simpl. right.
  pose proof (Bridge.machine_lines_assigned Solve job_times n_machines Hlen) as Hl.
  rewrite Hr in Hl. simpl in Hl. rewrite Hl.
  apply (in_map (fun i => PrintMachine i (assigned_jobs Solve job_times n_machines i))).
  apply in_seq. lia.
Qed.

Lemma schedule_returns_objective_value_only_witness :
  let solver := solver_after ReferenceSolver.Solve [1; 2; 3] 2 in
  snd (schedule ReferenceSolver.Solve [1; 2; 3] 2) = Returned (CpSat.ObjectiveValue solver)
  /\ CpSat.status solver = CpSat.OPTIMAL
  /\ forall i, (i < Z.to_nat 2)%nat ->
       In (PrintMachine i (assigned_jobs ReferenceSolver.Solve [1; 2; 3] 2 i))
          (printed (schedule ReferenceSolver.Solve [1; 2; 3] 2)).
Proof.
  apply (schedule_returns_objective_value_only ReferenceSolver.Solve [1; 2; 3] 2).
  - exact ReferenceFacts.Solve_conforming.
  - lia.
  - repeat constructor; lia.
Defined.

(** C6, as the script behaves: [schedule] prints.  Three jobs on one
    machine leave lines on the output. *)
Lemma output_not_empty : printed (schedule ReferenceSolver.Solve [3; 3; 3] 1) <> [].
Proof. vm_compute. discriminate. Qed.

(** C6, amended: [schedule] itself prints its result before it returns it.
    On every input the first line printed is the makespan line for the
    solver's objective value, and a value that is returned is that objective
    value; on valid input the makespan line is followed by one line per
    machine with the jobs scheduled on it, and nothing else, and the
    objective value is returned. *)
Theorem schedule_prints_its_result Solve job_times n_machines :
  (exists rest,
     printed (schedule Solve job_times n_machines)
     = PrintMakespan (CpSat.ObjectiveValue (solver_after Solve job_times n_machines))
         :: rest)
  /\ (forall v, returned (schedule Solve job_times n_machines) = Some v ->
        v = CpSat.ObjectiveValue (solver_after Solve job_times n_machines))
  /\ (Conforming Solve ->
      1 <= n_machines -> Forall (fun t => 0 < t) job_times ->
      printed (schedule Solve job_times n_machines)
      = PrintMakespan (CpSat.ObjectiveValue (solver_after Solve job_times n_machines))
          :: map (fun i => PrintMachine i (assigned_jobs Solve job_times n_machines i))
                 (seq 0 (Z.to_nat n_machines))
      /\ snd (schedule Solve job_times n_machines)
         = Returned (CpSat.ObjectiveValue (solver_after Solve job_times n_machines))).
Proof.
  split; [|split].
  - unfold schedule, Scheduler.schedule, solver_after, model_built.
    destruct (Scheduler.build _ _) as [jobs model]. simpl.
    unfold Scheduler._print_results, print.
    destruct (py_for _ _) as [out [u|e]]; simpl; eexists; reflexivity.
  - intros v. unfold schedule, Scheduler.schedule, solver_after, model_built, returned.
    destruct (Scheduler.build _ _) as [jobs model]. simpl.
    destruct (Scheduler._print_results _ _) as [out [u|e]]; simpl.
    + intros [= <-]. reflexivity.
    + discriminate.
  - intros Hsolve Hnm Hpos.
    destruct (Run.schedule_valid Solve Hsolve job_times n_machines Hnm
                (Bridge.nonneg_of_positive _ Hpos)) as (s & Hs & Hr & Hrun & _).
    assert (Hlen : (Z.to_nat n_machines * length job_times
                    <= length (CpSat.solution
                         (Solve (Model.model_of job_times (Z.to_nat n_machines)))))%nat).
    { rewrite Hr. simpl. rewrite (Correspondence.sound_length _ _ _ Hs). lia. }
    pose proof (Bridge.machine_lines_assigned Solve job_times n_machines Hlen) as Hl.
    rewrite Hr in Hl. simpl in Hl.
    unfold solver_after. rewrite Bridge.model_built_closed, Hrun, Hr.
    unfold printed. simpl. now rewrite Hl.
Qed.

Lemma schedule_prints_its_result_witness :
  printed (schedule ReferenceSolver.Solve [3; 3; 3] 1)
  = PrintMakespan (CpSat.ObjectiveValue (solver_after ReferenceSolver.Solve [3; 3; 3] 1))
      :: map (fun i => PrintMachine i (assigned_jobs ReferenceSolver.Solve [3; 3; 3] 1 i))
             (seq 0 (Z.to_nat 1))
  /\ snd (schedule ReferenceSolver.Solve [3; 3; 3] 1)
     = Returned (CpSat.ObjectiveValue (solver_after ReferenceSolver.Solve [3; 3; 3] 1)).
Proof.
  apply (schedule_prints_its_result ReferenceSolver.Solve [3; 3; 3] 1).
  - exact ReferenceFacts.Solve_conforming.
  - lia.
  - repeat constructor; lia.
Defined.

(** C7: with the jobs fixed, one more machine does not raise the value
    [schedule] returns; with the machines fixed, one more job appended does
    not lower it. *)
Theorem makespan_monotone Solve job_times n_machines :
  Conforming Solve ->
  1 <= n_machines -> Forall (fun t => 0 <= t) job_times ->
  exists v,
    returned (schedule Solve job_times n_machines) = Some v
    /\ (exists v', returned (schedule Solve job_times (n_machines + 1)) = Some v'
                   /\ v' <= v)
    /\ (forall t, 0 <= t ->
        exists v', returned (schedule Solve (job_times ++ [t]) n_machines) = Some v'
                   /\ v <= v').
Proof.
  intros Hsolve Hnm Hpos.
  destruct (Run.schedule_valid Solve Hsolve job_times n_machines Hnm Hpos)
    as (s & _ & _ & Hrun & Hopt).
  eexists. split; [now rewrite Hrun|]. split.
  - destruct (Run.schedule_valid Solve Hsolve job_times (n_machines + 1)
                ltac:(lia) Hpos) as (s' & _ & _ & Hrun' & Hopt').
    replace (Z.to_nat (n_machines + 1)) with (S (Z.to_nat n_machines)) in * by lia.
    eexists. split; [now rewrite Hrun'|].
    apply (Optimum.optimal_more_machines job_times (Z.to_nat n_machines));
      [lia|assumption..].
  - intros t Ht.
    assert (Hpos' : Forall (fun t => 0 <= t) (job_times ++ [t])).
    { apply Forall_app. split; [assumption|]. now constructor. }
    destruct (Run.schedule_valid Solve Hsolve (job_times ++ [t]) n_machines Hnm Hpos')
      as (s' & _ & _ & Hrun' & Hopt').
    eexists. split; [now rewrite Hrun'|].
    apply (Optimum.optimal_more_jobs job_times t (Z.to_nat n_machines));
      [lia|assumption..].
Qed.

Lemma makespan_monotone_witness :
  exists v,
    returned (schedule ReferenceSolver.Solve [1; 2; 3] 2) = Some v
    /\ (exists v', returned (schedule ReferenceSolver.Solve [1; 2; 3] (2 + 1)) = Some v'
                   /\ v' <= v)
    /\ (forall t, 0 <= t ->
        exists v', returned (schedule ReferenceSolver.Solve ([1; 2; 3] ++ [t]) 2) = Some v'
                   /\ v <= v').
Proof.
  apply (makespan_monotone ReferenceSolver.Solve [1; 2; 3] 2).
  - exact ReferenceFacts.Solve_conforming.
  - lia.
  - repeat constructor; lia.
Defined.

(** C8: the outcome of [schedule] does not depend on which optimal solution
    the solver finds: two conforming solvers end the run the same way, and
    on valid input both return the same makespan value. *)
Theorem makespan_value_deterministic Solve1 Solve2 job_times n_machines :
  Conforming Solve1 -> Conforming Solve2 ->
  snd (schedule Solve1 job_times n_machines)
  = snd (schedule Solve2 job_times n_machines)
  /\ (1 <= n_machines -> Forall (fun t => 0 < t) job_times ->
      exists v,
        returned (schedule Solve1 job_times n_machines) = Some v
        /\ returned (schedule Solve2 job_times n_machines) = Some v).
Proof.
  intros H1 H2. split.
  - set (M := Z.to_nat n_machines).
    unfold schedule, Scheduler.schedule. rewrite BuildFacts.build_run. fold M.
    destruct (H1 (Model.model_of job_times M)) as [s1 Hs1 Hmin1|st1 Hnone1 _];
      destruct (H2 (Model.model_of job_times M)) as [s2 Hs2 Hmin2|st2 Hnone2 _].
    + pose proof (Correspondence.sound_length _ _ _ (Encoding.feasible_sound _ _ _ Hs1)).
      pose proof (Correspondence.sound_length _ _ _ (Encoding.feasible_sound _ _ _ Hs2)).
      rewrite !Run.print_results_run by (simpl; lia). simpl. f_equal.
      specialize (Hmin1 s2 Hs2). specialize (Hmin2 s1 Hs1).
      unfold CpSat.ObjectiveValue. simpl. lia.
    + now rewrite Hnone2 in Hs1.
    + now rewrite Hnone1 in Hs2.
    + now rewrite (Run.print_results_ext _ {| CpSat.status := st2;
                                              CpSat.objective_value := 0;
                                              CpSat.solution := [] |}).
  - intros Hnm Hpos.
    destruct (Run.schedule_valid Solve1 H1 job_times n_machines Hnm
                (Bridge.nonneg_of_positive _ Hpos)) as (s1 & _ & _ & Hrun1 & Hopt1).
    destruct (Run.schedule_valid Solve2 H2 job_times n_machines Hnm
                (Bridge.nonneg_of_positive _ Hpos)) as (s2 & _ & _ & Hrun2 & Hopt2).
    eexists. split; [now rewrite Hrun1|]. rewrite Hrun2. unfold returned. simpl.
    f_equal. apply (Optimum.optimal_makespan_unique _ _ _ _ Hopt2 Hopt1).
Qed.

Lemma makespan_value_deterministic_witness :
  snd (schedule ReferenceSolver.Solve [1; 1] 2)
  = snd (schedule ReferenceSolver.Solve_last [1; 1] 2)
  /\ exists v,
       returned (schedule ReferenceSolver.Solve [1; 1] 2) = Some v
       /\ returned (schedule ReferenceSolver.Solve_last [1; 1] 2) = Some v.
Proof.
  destruct (makespan_value_deterministic
              ReferenceSolver.Solve ReferenceSolver.Solve_last [1; 1] 2
              ReferenceFacts.Solve_conforming ReferenceFacts.Solve_last_conforming)
    as [Hsame Hvalid].
  split; [exact Hsame|].
  apply Hvalid; [lia|repeat constructor; lia].
Defined.

(** C9: no job and two machines: [schedule] returns makespan [0], and the
    assignment it reports has no job on either machine. *)
Theorem schedule_no_jobs_two_machines Solve :
  Conforming Solve ->
  schedule Solve [] 2
  = ([PrintMakespan 0; PrintMachine 0 []; PrintMachine 1 []], Returned 0)
  /\ assigned_jobs Solve [] 2 0 = []
  /\ assigned_jobs Solve [] 2 1 = [].
Proof.
  intros Hsolve.
  destruct (Run.schedule_valid Solve Hsolve [] 2 ltac:(lia) (Forall_nil _))
    as (s & _ & _ & Hrun & _).
  split; [|split; reflexivity].
  rewrite Hrun. reflexivity.
Qed.

Lemma schedule_no_jobs_two_machines_witness :
  schedule ReferenceSolver.Solve [] 2
  = ([PrintMakespan 0; PrintMachine 0 []; PrintMachine 1 []], Returned 0)
  /\ assigned_jobs ReferenceSolver.Solve [] 2 0 = []
  /\ assigned_jobs ReferenceSolver.Solve [] 2 1 = [].
Proof.
  apply (schedule_no_jobs_two_machines ReferenceSolver.Solve).
  exact ReferenceFacts.Solve_conforming.
Defined.



(** ** The builder's methods, one by one

    Each method is run on an arbitrary model and an arbitrary list [jobs],
    not only on the ones [schedule] passes. *)

Module MethodFacts.
Import CpSat Model Problem Sums Semantics.

#[local] Arguments py_eq : simpl never.
#[local] Arguments py_sum : simpl never.
#[local] Arguments np_dot : simpl never.
#[local] Arguments constraint_of : simpl never.

Lemma add_bool_vars_run self jobs m :
  Scheduler._add_bool_vars self jobs m
  = (jobs ++ map (fun i => seq (length (variables m)
                                + i * length (Scheduler.job_times self))%nat
                               (length (Scheduler.job_times self)))
                 (seq 0 (Z.to_nat (Scheduler.n_machines self))),
     extend m
       (flat_map (fun i => map (fun j => mk_var (Scheduler.job_name i j) 0 1)
                               (seq 0 (length (Scheduler.job_times self))))
                 (seq 0 (Z.to_nat (Scheduler.n_machines self)))) []).
Proof.
  unfold Scheduler._add_bool_vars, range. unfold bind.
  rewrite BuildFacts.for_each_rows. unfold ret. do 2 f_equal.
  apply map_ext. intros i. now rewrite Nat.sub_0_r.
Qed.

Lemma in_flat_rows {A} (f : nat -> nat -> A) (N : nat) (l : list nat) (x : A) :
  In x (flat_map (fun i => map (f i) (seq 0 N)) l) ->
  exists i j, x = f i j.
Proof.
  intros H. apply in_flat_map in H as (i & _ & H).
  apply in_map_iff in H as (j & <- & _). now exists i, j.
Qed.

Lemma single_machine_constraints_run self jobs m :
  Scheduler._add_single_machine_constraints self jobs m
  = (tt,
     extend m []
       (map (fun j => constraint_of
               (py_eq (py_sum (map (fun i => Scheduler.item jobs i j)
                                   (range (Scheduler.n_machines self))))
                      (Num 1)))
            (seq 0 (Scheduler.n_jobs self)))).
Proof.
  unfold Scheduler._add_single_machine_constraints. unfold bind at 1.
  pose proof (BuildFacts.for_each_add (seq 0 (Scheduler.n_jobs self))
    (fun j => py_eq (py_sum (map (fun i => Scheduler.item jobs i j)
                                 (range (Scheduler.n_machines self))))
                    (Num 1)) m) as H.
  destruct (for_each _ _ m) as [us m']. simpl in H. now subst m'.
Qed.

Lemma machine_makespan_constraints_run self jobs m :
  Scheduler._add_machine_makespan_constraints self jobs m
  = (seq (length (variables m)) (Z.to_nat (Scheduler.n_machines self)),
     extend m
       (map (fun i => mk_var (Scheduler.machine_name i) 0 (Scheduler.upper_bound self))
            (seq 0 (Z.to_nat (Scheduler.n_machines self))))
       (map (fun i => constraint_of
               (py_eq (Expr (var_expr (length (variables m) + i)%nat))
                      (np_dot (nth i jobs []) (Scheduler.job_times self))))
            (seq 0 (Z.to_nat (Scheduler.n_machines self))))).
Proof.
  unfold Scheduler._add_machine_makespan_constraints, range.
  rewrite BuildFacts.for_each_loads. do 2 f_equal.
  apply map_ext. intros i. now rewrite Nat.sub_0_r.
Qed.

Lemma define_objective_run self mms m :
  Scheduler._define_objective self mms m
  = (length (variables m),
     extend m [mk_var "makespan" 0 (Scheduler.upper_bound self)]
              [MaxEquality (length (variables m)) mms]).
Proof.
  unfold Scheduler._define_objective. unfold bind at 1.
  rewrite BuildFacts.NewIntVar_run. unfold bind at 1.
  rewrite BuildFacts.AddMaxEquality_run. unfold ret.
  now rewrite BuildFacts.extend_extend.
Qed.

Lemma nth_error_map_seq {A} (f : nat -> A) (n i : nat) (c : A) :
  nth_error (map f (seq 0 n)) i = Some c -> c = f i /\ (i < n)%nat.
Proof.
  rewrite nth_error_map, nth_error_seq.
  destruct (Nat.ltb_spec i n) as [Hlt|Hge]; [|discriminate].
  intros Hc. split; [|assumption]. simpl in Hc. congruence.
Qed.

(** A value is the maximum of a list when it is in the list and bounds it. *)
Lemma maximum_spec zs v :
  maximum zs = Some v <-> In v zs /\ forall y, In y zs -> y <= v.
Proof.
  split.
  - intros H. split; [now apply maximum_in|].
    intros y Hy. now apply (maximum_upper zs).
  - intros [Hin Hub]. destruct (maximum_some zs) as [mx Hmx].
    { intros ->. destruct Hin. }
    rewrite Hmx. f_equal.
    pose proof (maximum_in _ _ Hmx) as H1.
    pose proof (maximum_upper _ _ _ Hmx Hin) as H2.
    specialize (Hub mx H1). lia.
Qed.

End MethodFacts.

(** X1: [_add_bool_vars], on any model and any list [jobs], appends one row
    per machine to [jobs]; the rows hold fresh variables with consecutive
    indices, one per job, each with domain [0..1]; the variables already in
    the model, its constraints and its objective are left as they were. *)
Theorem add_bool_vars_appends_fresh_boolean_rows self jobs m :
  let M := Z.to_nat (Scheduler.n_machines self) in
  let N := length (Scheduler.job_times self) in
  let v0 := length (CpSat.variables m) in
  let jobs' := fst (Scheduler._add_bool_vars self jobs m) in
  let m' := snd (Scheduler._add_bool_vars self jobs m) in
  jobs' = jobs ++ map (fun i => seq (v0 + i * N) N) (seq 0 M)
  /\ length (CpSat.variables m') = (v0 + M * N)%nat
  /\ firstn v0 (CpSat.variables m') = CpSat.variables m
  /\ (forall k x, (v0 <= k)%nat -> nth_error (CpSat.variables m') k = Some x ->
        CpSat.var_lb x = 0 /\ CpSat.var_ub x = 1)
  /\ CpSat.constraints m' = CpSat.constraints m
  /\ CpSat.objective m' = CpSat.objective m.
Proof.
  intros M N v0 jobs' m'. subst jobs' m'.
  rewrite MethodFacts.add_bool_vars_run. simpl. fold M N v0.
  split; [reflexivity|]. split.
  { now rewrite length_app, BuildFacts.length_flat_rows. }
  split.
  { unfold v0. now rewrite firstn_app, firstn_all, Nat.sub_diag, firstn_0, app_nil_r. }
  split.
  { intros k x Hk Hx. unfold v0 in Hk. rewrite nth_error_app2 in Hx by exact Hk.
    apply nth_error_In in Hx.
    apply MethodFacts.in_flat_rows in Hx as (i & j & ->). now split. }
  split; [apply app_nil_r|reflexivity].
Qed.

(** X2: [_add_single_machine_constraints], on any model and on [jobs] with
    a row for every machine and an entry for every job in each of these rows
    (so that no [jobs[i][j]] is out of range), adds one constraint per job
    and nothing else; the constraint of job [j] holds under a valuation
    exactly when the values of [jobs[i][j]] over the machines [i] add up to
    one.  With no machine it never holds. *)
Theorem single_machine_constraints_say_one_machine self jobs m :
  (forall i, (i < Z.to_nat (Scheduler.n_machines self))%nat ->
     exists row, nth_error jobs i = Some row
                 /\ (Scheduler.n_jobs self <= length row)%nat) ->
  let m' := snd (Scheduler._add_single_machine_constraints self jobs m) in
  (forall i j, (i < Z.to_nat (Scheduler.n_machines self))%nat ->
               (j < Scheduler.n_jobs self)%nat ->
     exists row, nth_error jobs i = Some row
                 /\ nth_error row j = Some (Scheduler.item jobs i j))
  /\ CpSat.variables m' = CpSat.variables m
  /\ CpSat.objective m' = CpSat.objective m
  /\ exists cs,
       CpSat.constraints m' = CpSat.constraints m ++ cs
       /\ length cs = Scheduler.n_jobs self
       /\ (forall j c s, nth_error cs j = Some c ->
             CpSat.holds s c
             = (sum (map (fun i => CpSat.value s (Scheduler.item jobs i j))
                         (range (Scheduler.n_machines self))) =? 1))
       /\ (Scheduler.n_machines self < 1 ->
           forall c s, In c cs -> CpSat.holds s c = false).
Proof.
  intros Hshape m'. subst m'.
  rewrite MethodFacts.single_machine_constraints_run. simpl.
  split.
  { intros i j Hi Hj. destruct (Hshape i Hi) as (row & Hrow & Hlen).
    exists row. split; [assumption|]. unfold Scheduler.item.
    rewrite (nth_error_nth _ _ [] Hrow). apply nth_error_nth'. lia. }
  split; [apply app_nil_r|]. split; [reflexivity|].
  eexists. split; [reflexivity|]. split; [now rewrite length_map, length_seq|].
  assert (Hj : forall j c s,
    nth_error (map (fun j => Model.constraint_of
                 (CpSat.py_eq (CpSat.py_sum (map (fun i => Scheduler.item jobs i j)
                                                 (range (Scheduler.n_machines self))))
                              (CpSat.Num 1)))
                   (seq 0 (Scheduler.n_jobs self))) j = Some c ->
    CpSat.holds s c
    = (sum (map (fun i => CpSat.value s (Scheduler.item jobs i j))
                (range (Scheduler.n_machines self))) =? 1)).
  { intros j c s Hc. rewrite nth_error_map in Hc.
    destruct (nth_error (seq 0 _) j) as [j'|] eqn:Hs; [|discriminate].
    injection Hc as <-.
    assert (j' = j).
    { pose proof (nth_error_Some (seq 0 (Scheduler.n_jobs self)) j) as Hlt.
      rewrite Hs, length_seq in Hlt.
      rewrite nth_error_seq in Hs.
      destruct (Nat.ltb_spec j (Scheduler.n_jobs self)); [now injection Hs|discriminate]. }
    subst j'. now rewrite Semantics.holds_py_eq, Semantics.den_py_sum, map_map. }
  split; [exact Hj|].
  intros Hnm c s Hc. apply In_nth_error in Hc as [j Hc].
  rewrite (Hj j c s Hc). unfold range.
  replace (Z.to_nat (Scheduler.n_machines self)) with 0%nat by lia.
  reflexivity.
Qed.

Lemma single_machine_constraints_say_one_machine_witness :
  (forall i j, (i < Z.to_nat 2)%nat -> (j < 2)%nat ->
     exists row, nth_error ([[0; 1]; [2; 3]]%nat) i = Some row
                 /\ nth_error row j = Some (Scheduler.item ([[0; 1]; [2; 3]]%nat) i j))
  /\ CpSat.variables
       (snd (Scheduler._add_single_machine_constraints (Scheduler.__init__ [1; 2]%Z 2%Z) ([[0; 1]; [2; 3]]%nat) (snd (Scheduler._add_bool_vars (Scheduler.__init__ [1; 2]%Z 2%Z) [] CpSat.new_model))))
     = CpSat.variables (snd (Scheduler._add_bool_vars (Scheduler.__init__ [1; 2]%Z 2%Z) [] CpSat.new_model))
  /\ CpSat.objective
       (snd (Scheduler._add_single_machine_constraints (Scheduler.__init__ [1; 2]%Z 2%Z) ([[0; 1]; [2; 3]]%nat) (snd (Scheduler._add_bool_vars (Scheduler.__init__ [1; 2]%Z 2%Z) [] CpSat.new_model))))
     = CpSat.objective (snd (Scheduler._add_bool_vars (Scheduler.__init__ [1; 2]%Z 2%Z) [] CpSat.new_model))
  /\ exists cs,
       CpSat.constraints
         (snd (Scheduler._add_single_machine_constraints (Scheduler.__init__ [1; 2]%Z 2%Z) ([[0; 1]; [2; 3]]%nat) (snd (Scheduler._add_bool_vars (Scheduler.__init__ [1; 2]%Z 2%Z) [] CpSat.new_model))))
       = CpSat.constraints (snd (Scheduler._add_bool_vars (Scheduler.__init__ [1; 2]%Z 2%Z) [] CpSat.new_model)) ++ cs
       /\ length cs = 2%nat
       /\ (forall j c s, nth_error cs j = Some c ->
             CpSat.holds s c
             = (sum (map (fun i => CpSat.value s (Scheduler.item ([[0; 1]; [2; 3]]%nat) i j))
                         (range 2)) =? 1))
       /\ (2 < 1 -> forall c s, In c cs -> CpSat.holds s c = false).
Proof.
  apply (single_machine_constraints_say_one_machine (Scheduler.__init__ [1; 2]%Z 2%Z) ([[0; 1]; [2; 3]]%nat) (snd (Scheduler._add_bool_vars (Scheduler.__init__ [1; 2]%Z 2%Z) [] CpSat.new_model))).
  intros i Hi. simpl in Hi.
  destruct i as [|[|i]]; [| |lia]; eexists; (split; [reflexivity|simpl; lia]).
Defined.

(** X3: [_add_machine_makespan_constraints], on any model and on [jobs]
    with a row for every machine, each of these rows as long as
    [job_times] (so that [jobs[i]] is in range and [np.dot] gets two
    sequences of one length), creates one variable per machine with domain
    [0..upper_bound], returns these variables in machine order, and adds one
    constraint per machine; the constraint of machine [i] holds exactly when
    the machine's variable equals the durations weighted by the values of
    row [jobs[i]]. *)
Theorem machine_makespan_constraints_say_weighted_sum self jobs m :
  (forall i, (i < Z.to_nat (Scheduler.n_machines self))%nat ->
     exists row, nth_error jobs i = Some row
                 /\ length row = length (Scheduler.job_times self)) ->
  let M := Z.to_nat (Scheduler.n_machines self) in
  let v0 := length (CpSat.variables m) in
  let made := fst (Scheduler._add_machine_makespan_constraints self jobs m) in
  let m' := snd (Scheduler._add_machine_makespan_constraints self jobs m) in
  made = seq v0 M
  /\ (forall i, (i < M)%nat ->
        nth_error jobs i = Some (nth i jobs [])
        /\ length (combine (nth i jobs []) (Scheduler.job_times self))
           = length (Scheduler.job_times self))
  /\ CpSat.objective m' = CpSat.objective m
  /\ exists xs cs,
       CpSat.variables m' = CpSat.variables m ++ xs
       /\ CpSat.constraints m' = CpSat.constraints m ++ cs
       /\ length xs = M /\ length cs = M
       /\ (forall x, In x xs ->
             CpSat.var_lb x = 0 /\ CpSat.var_ub x = Scheduler.upper_bound self)
       /\ (forall i c s, nth_error cs i = Some c ->
             CpSat.holds s c
             = (CpSat.value s (v0 + i)%nat
                =? sum (map (fun vc => snd vc * CpSat.value s (fst vc))
                            (combine (nth i jobs []) (Scheduler.job_times self))))).
Proof.
  intros Hshape M v0 made m'. subst made m'.
  rewrite MethodFacts.machine_makespan_constraints_run.
  cbn [fst snd Model.extend CpSat.variables CpSat.constraints CpSat.objective].
  fold M v0.
  split; [reflexivity|]. split.
  { intros i Hi. destruct (Hshape i Hi) as (row & Hrow & Hlen).
    rewrite (nth_error_nth _ _ [] Hrow). split; [assumption|].
    rewrite length_combine, Hlen. apply Nat.min_id. }
  split; [reflexivity|].
  eexists. eexists. split; [reflexivity|]. split; [reflexivity|].
  split; [now rewrite length_map, length_seq|].
  split; [now rewrite length_map, length_seq|]. split.
  - intros x Hx. apply in_map_iff in Hx as (i & <- & _). now split.
  - intros i c s Hc.
    apply MethodFacts.nth_error_map_seq in Hc as [Hc _]. rewrite Hc.
    rewrite Semantics.holds_py_eq, Semantics.den_np_dot.
    cbn [Model.den]. now rewrite Semantics.eval_var.
Qed.

Lemma machine_makespan_constraints_say_weighted_sum_witness :
  fst (Scheduler._add_machine_makespan_constraints (Scheduler.__init__ [1; 2]%Z 2%Z) ([[0; 1]; [2; 3]]%nat) (snd (Scheduler._add_bool_vars (Scheduler.__init__ [1; 2]%Z 2%Z) [] CpSat.new_model)))
  = seq (length (CpSat.variables (snd (Scheduler._add_bool_vars (Scheduler.__init__ [1; 2]%Z 2%Z) [] CpSat.new_model)))) (Z.to_nat 2)
  /\ (forall i, (i < Z.to_nat 2)%nat ->
        nth_error ([[0; 1]; [2; 3]]%nat) i = Some (nth i ([[0; 1]; [2; 3]]%nat) [])
        /\ length (combine (nth i ([[0; 1]; [2; 3]]%nat) []) [1; 2]) = length [1; 2])
  /\ CpSat.objective
       (snd (Scheduler._add_machine_makespan_constraints (Scheduler.__init__ [1; 2]%Z 2%Z) ([[0; 1]; [2; 3]]%nat) (snd (Scheduler._add_bool_vars (Scheduler.__init__ [1; 2]%Z 2%Z) [] CpSat.new_model))))
     = CpSat.objective (snd (Scheduler._add_bool_vars (Scheduler.__init__ [1; 2]%Z 2%Z) [] CpSat.new_model))
  /\ exists xs cs,
       CpSat.variables
         (snd (Scheduler._add_machine_makespan_constraints (Scheduler.__init__ [1; 2]%Z 2%Z) ([[0; 1]; [2; 3]]%nat) (snd (Scheduler._add_bool_vars (Scheduler.__init__ [1; 2]%Z 2%Z) [] CpSat.new_model))))
       = CpSat.variables (snd (Scheduler._add_bool_vars (Scheduler.__init__ [1; 2]%Z 2%Z) [] CpSat.new_model)) ++ xs
       /\ CpSat.constraints
            (snd (Scheduler._add_machine_makespan_constraints (Scheduler.__init__ [1; 2]%Z 2%Z) ([[0; 1]; [2; 3]]%nat) (snd (Scheduler._add_bool_vars (Scheduler.__init__ [1; 2]%Z 2%Z) [] CpSat.new_model))))
          = CpSat.constraints (snd (Scheduler._add_bool_vars (Scheduler.__init__ [1; 2]%Z 2%Z) [] CpSat.new_model)) ++ cs
       /\ length xs = Z.to_nat 2 /\ length cs = Z.to_nat 2
       /\ (forall x, In x xs -> CpSat.var_lb x = 0 /\ CpSat.var_ub x = sum [1; 2])
       /\ (forall i c s, nth_error cs i = Some c ->
             CpSat.holds s c
             = (CpSat.value s (length (CpSat.variables (snd (Scheduler._add_bool_vars (Scheduler.__init__ [1; 2]%Z 2%Z) [] CpSat.new_model))) + i)%nat
                =? sum (map (fun vc => snd vc * CpSat.value s (fst vc))
                            (combine (nth i ([[0; 1]; [2; 3]]%nat) []) [1; 2])))).
Proof.
  apply (machine_makespan_constraints_say_weighted_sum (Scheduler.__init__ [1; 2]%Z 2%Z) ([[0; 1]; [2; 3]]%nat) (snd (Scheduler._add_bool_vars (Scheduler.__init__ [1; 2]%Z 2%Z) [] CpSat.new_model))).
  intros i Hi. simpl in Hi.
  destruct i as [|[|i]]; [| |lia]; eexists; (split; reflexivity).
Defined.

(** X4: [_define_objective], on any model and any list of machine
    variables, creates one variable with domain [0..upper_bound], returns
    it, and adds one constraint; the constraint holds exactly when the value
    of the new variable is the value of one of the machine variables and is
    at least the value of each of them.  For an empty list it never holds. *)
Theorem define_objective_says_maximum self machine_makespans m :
  let v0 := length (CpSat.variables m) in
  let makespan := fst (Scheduler._define_objective self machine_makespans m) in
  let m' := snd (Scheduler._define_objective self machine_makespans m) in
  makespan = v0
  /\ CpSat.objective m' = CpSat.objective m
  /\ exists x c,
       CpSat.variables m' = CpSat.variables m ++ [x]
       /\ CpSat.var_lb x = 0 /\ CpSat.var_ub x = Scheduler.upper_bound self
       /\ CpSat.constraints m' = CpSat.constraints m ++ [c]
       /\ (forall s,
             CpSat.holds s c = true
             <-> (exists v, In v machine_makespans
                            /\ CpSat.value s v = CpSat.value s makespan)
                 /\ (forall v, In v machine_makespans ->
                       CpSat.value s v <= CpSat.value s makespan)).
Proof.
  intros v0 makespan m'. subst makespan m'.
  rewrite MethodFacts.define_objective_run. simpl. fold v0.
  split; [reflexivity|]. split; [reflexivity|].
  eexists. eexists. split; [reflexivity|].
  split; [reflexivity|]. split; [reflexivity|]. split; [reflexivity|].
  intros s. simpl.
  destruct (CpSat.maximum (map (CpSat.value s) machine_makespans)) as [mx|] eqn:Hmx.
  - rewrite Z.eqb_eq. apply MethodFacts.maximum_spec in Hmx as [Hin Hub]. split.
    + intros ->. split.
      * apply in_map_iff in Hin as (v & Hv & Hin). now exists v.
      * intros v Hv. apply Hub. now apply in_map.
    + intros [(v & Hv & Heq) Hall].
      assert (Hmax : CpSat.maximum (map (CpSat.value s) machine_makespans)
                     = Some (CpSat.value s v0)).
      { apply MethodFacts.maximum_spec. split.
        - rewrite <- Heq. now apply in_map.
        - intros y Hy. apply in_map_iff in Hy as (w & <- & Hw). now apply Hall. }
      apply MethodFacts.maximum_spec in Hmax as [Hin' Hub'].
      specialize (Hub _ Hin'). specialize (Hub' _ Hin). lia.
  - split; [discriminate|]. intros [(v & Hv & _) _].
    destruct machine_makespans; [destruct Hv|discriminate].
Qed.

(** ** The model as a whole *)

(** X5: the model [schedule] builds for [M] machines and [N] jobs has
    [M*N + M + 1] variables and [N + M + 1] constraints, and [jobs] has [M]
    rows of [N] variables each, no variable occurring twice. *)
Theorem model_size job_times n_machines :
  let M := Z.to_nat n_machines in
  let N := length job_times in
  length (CpSat.variables (model_built job_times n_machines)) = (M * N + M + 1)%nat
  /\ length (CpSat.constraints (model_built job_times n_machines)) = (N + M + 1)%nat
  /\ length (jobs_built job_times n_machines) = M
  /\ (forall row, In row (jobs_built job_times n_machines) -> length row = N)
  /\ NoDup (concat (jobs_built job_times n_machines)).
Proof.
  intros M N. rewrite Bridge.model_built_closed, Bridge.jobs_built_rows. fold M N.
  split; [apply Encoding.length_variables|]. split.
  { unfold Model.model_of. simpl. rewrite !length_app, !length_map, !length_seq.
    simpl. fold N. lia. }
  unfold Model.rows. split; [now rewrite length_map, length_seq|]. split.
  { intros row Hrow. apply in_map_iff in Hrow as (i & <- & _). apply length_seq. }
  assert (H : forall len a, concat (map (fun i => seq (i * N) N) (seq a len))
                            = seq (a * N) (len * N)).
  { induction len as [|len IH]; intros a; simpl; [reflexivity|].
    rewrite IH, seq_app. simpl. now rewrite (Nat.add_comm (a * N) N). }
  rewrite H. apply seq_NoDup.
Qed.

(** X6: for durations that are not negative, the model [schedule] builds
    has a solution exactly when there is at least one machine. *)
Theorem model_has_solution_iff_some_machine job_times n_machines :
  Forall (fun t => 0 <= t) job_times ->
  (exists s, CpSat.is_feasible (model_built job_times n_machines) s = true)
  <-> 1 <= n_machines.
Proof.
  intros Hpos. rewrite Bridge.model_built_closed. split.
  - intros [s Hs]. apply Encoding.feasible_sound in Hs.
    pose proof (Correspondence.sound_max _ _ _ Hs) as Hmax.
    destruct (Z.to_nat n_machines) eqn:HM; [discriminate Hmax|lia].
  - intros Hnm. exists (Correspondence.valuation job_times (Z.to_nat n_machines)
                          (fun _ => 0%nat)).
    apply Encoding.valuation_feasible; [lia|assumption|]. intros j _. lia.
Qed.

Lemma model_has_solution_iff_some_machine_witness :
  (exists s, CpSat.is_feasible (model_built [5; 5; 5; 5] 2) s = true)
  <-> 1 <= 2.
Proof.
  apply (model_has_solution_iff_some_machine [5; 5; 5; 5] 2).
  repeat constructor; lia.
Defined.

(** X7: on valid input the objective values of the model's solutions are
    exactly the makespans of the total assignments of jobs to machines: the
    model neither loses a schedule nor admits a value no schedule has. *)
Theorem model_objectives_are_makespans job_times n_machines v :
  1 <= n_machines -> Forall (fun t => 0 <= t) job_times ->
  (exists s, CpSat.is_feasible (model_built job_times n_machines) s = true
             /\ CpSat.objective_of (model_built job_times n_machines) s = v)
  <-> (exists asg, Problem.total (Z.to_nat n_machines) (length job_times) asg
                   /\ Problem.makespan job_times (Z.to_nat n_machines) asg = v).
Proof.
  intros Hnm Hpos. rewrite Bridge.model_built_closed. split.
  - intros (s & Hs & <-). apply Encoding.feasible_sound in Hs.
    exists (Correspondence.machine_of s (Z.to_nat n_machines) (length job_times)).
    split; [now apply Encoding.sound_total|].
    rewrite Encoding.objective_model. now apply Encoding.sound_makespan.
  - intros (asg & Htot & <-).
    exists (Correspondence.valuation job_times (Z.to_nat n_machines) asg). split.
    + apply Encoding.valuation_feasible; [lia|assumption..].
    + rewrite Encoding.objective_model. apply Encoding.valuation_makespan.
Qed.

Lemma model_objectives_are_makespans_witness :
  (exists s, CpSat.is_feasible (model_built [1; 2; 3] 2) s = true
             /\ CpSat.objective_of (model_built [1; 2; 3] 2) s = 3)
  <-> (exists asg, Problem.total (Z.to_nat 2) (length [1; 2; 3]) asg
                   /\ Problem.makespan [1; 2; 3] (Z.to_nat 2) asg = 3).
Proof.
  apply (model_objectives_are_makespans [1; 2; 3] 2 3).
  - lia.
  - repeat constructor; lia.
Defined.

(** ** [_print_results] on any response *)

Module PrintFacts.
Import CpSat.

Lemma Forall_snd_combine {A B} (P : B -> Prop) : forall (l1 : list A) (l2 : list B),
  length l1 = length l2 ->
  (Forall (fun p => P (snd p)) (combine l1 l2) <-> Forall P l2).
Proof.
  induction l1 as [|a l1 IH]; intros [|b l2] Hlen; simpl in *; try discriminate.
  - split; constructor.
  - injection Hlen as Hlen. specialize (IH l2 Hlen). split; intros H.
    + inversion H; subst. constructor; [assumption|now apply IH].
    + inversion H; subst. constructor; [assumption|now apply IH].
Qed.

Lemma Forall_enumerate {A} (P : A -> Prop) (l : list A) :
  Forall (fun p => P (snd p)) (enumerate l) <-> Forall P l.
Proof. apply Forall_snd_combine. apply length_seq. Qed.

(** Collecting a row's jobs prints nothing; it succeeds when every variable
    of the row has a value and raises otherwise. *)
Lemma scheduled_in_cases r : forall row,
  (Forall (fun jv => (snd jv < length (solution r))%nat) row
   /\ exists js, Scheduler.scheduled_in r row = ([], Returned js))
  \/ (~ Forall (fun jv => (snd jv < length (solution r))%nat) row
      /\ Scheduler.scheduled_in r row = ([], Raised NoSolutionValue)).
Proof.
  induction row as [|[index job] row IH]; simpl.
  - left. split; [constructor|]. now exists [].
  - unfold Value. destruct (nth_error (solution r) job) as [v|] eqn:Hv.
    + assert (Hlt : (job < length (solution r))%nat).
      { apply nth_error_Some. congruence. }
      destruct IH as [[Hall [js Hjs]]|[Hnot Hraise]].
      * left. split; [now constructor|]. rewrite Hjs. simpl.
        eexists. reflexivity.
      * right. split.
        -- intros H. inversion H; subst. contradiction.
        -- rewrite Hraise. reflexivity.
    + right. split.
      * intros H. inversion H; subst. simpl in *.
        apply nth_error_None in Hv. lia.
      * reflexivity.
Qed.

Lemma py_bind_print {B} (l : Line) (k : unit -> Py B) :
  py_bind (print l) k = (l :: fst (k tt), snd (k tt)).
Proof. unfold py_bind, print. destruct (k tt); reflexivity. Qed.

Lemma machines_loop_cases r : forall rows : list (nat * list IntVar),
  let body := fun ir : nat * list IntVar =>
    py_bind (Scheduler.scheduled_in r (enumerate (snd ir)))
            (fun scheduled => print (PrintMachine (fst ir) scheduled)) in
  let ok := fun ir : nat * list IntVar =>
    Forall (fun v => (v < length (solution r))%nat) (snd ir) in
  (Forall ok rows
   /\ exists out, py_for rows body = (out, Returned tt) /\ length out = length rows)
  \/ (~ Forall ok rows
      /\ exists out, py_for rows body = (out, Raised NoSolutionValue)).
Proof.
  intros rows body ok. induction rows as [|[i row] rows IH]; simpl.
  - left. split; [constructor|]. exists []. split; reflexivity.
  - unfold body at 1 3. simpl.
    destruct (scheduled_in_cases r (enumerate row)) as [[Hrow [js Hjs]]|[Hrow Hraise]].
    + apply (proj1 (Forall_enumerate
               (fun v => (v < length (solution r))%nat) row)) in Hrow.
      rewrite Hjs. simpl.
      destruct IH as [[Hall (out & Hout & Hlen)]|[Hnot (out & Hout)]].
      * left. split; [now constructor|]. rewrite Hout. simpl.
        eexists. split; [reflexivity|]. simpl. now rewrite Hlen.
      * right. split.
        -- intros H. inversion H; subst. contradiction.
        -- rewrite Hout. simpl. eexists. reflexivity.
    + right. split.
      * intros H. inversion H; subst. apply Hrow.
        now apply (proj2 (Forall_enumerate
                     (fun v => (v < length (solution r))%nat) row)).
      * rewrite Hraise. simpl. eexists. reflexivity.
Qed.

(** When a value is missing the loop stops at the first row that misses
    one, having printed one line for each row before it. *)
Lemma loop_stops_at_first_gap r : forall (jobs : list (list IntVar)) (a : nat),
  ~ Forall (Forall (fun v => (v < length (solution r))%nat)) jobs ->
  exists k out,
    (k < length jobs)%nat
    /\ py_for (combine (seq a (length jobs)) jobs)
         (fun ir : nat * list IntVar =>
            py_bind (Scheduler.scheduled_in r (enumerate (snd ir)))
                    (fun scheduled => print (PrintMachine (fst ir) scheduled)))
       = (out, Raised NoSolutionValue)
    /\ length out = k
    /\ Forall (Forall (fun v => (v < length (solution r))%nat)) (firstn k jobs)
    /\ ~ Forall (fun v => (v < length (solution r))%nat) (nth k jobs []).
Proof.
  induction jobs as [|row rest IH]; intros a Hnot.
  - exfalso. apply Hnot. constructor.
  - cbn [length seq combine py_for fst snd].
    destruct (scheduled_in_cases r (enumerate row)) as [[Hrow [js Hjs]]|[Hrow Hraise]].
    + apply (proj1 (Forall_enumerate
               (fun v => (v < length (solution r))%nat) row)) in Hrow.
      assert (Hrest : ~ Forall (Forall (fun v => (v < length (solution r))%nat)) rest).
      { intros H. apply Hnot. now constructor. }
      destruct (IH (S a) Hrest) as (k & out & Hk & Hout & Hlen & Hbefore & Hgap).
      exists (S k), (PrintMachine a js :: out).
      split; [simpl; lia|]. split.
      { rewrite Hjs. cbn [py_bind print app]. rewrite Hout. reflexivity. }
      split; [simpl; now rewrite Hlen|]. split.
      { simpl. now constructor. }
      exact Hgap.
    + exists 0%nat, []. split; [simpl; lia|]. split.
      { rewrite Hraise. reflexivity. }
      split; [reflexivity|]. split; [constructor|].
      simpl. intros H. apply Hrow.
      now apply (proj2 (Forall_enumerate
                   (fun v => (v < length (solution r))%nat) row)).
Qed.

End PrintFacts.

(** X8: [_print_results], on any response and any rows of variables, first
    prints the makespan line.  It returns normally exactly when the response
    holds a value for every variable in [jobs], then having printed one
    further line per row; otherwise it raises, one further line having been
    printed for each row before the first row that misses a value, and
    none for that row or for the rows after it. *)
Theorem print_results_returns_iff_values_present
  (r : CpSat.CpSolverResponse) (jobs : list (list CpSat.IntVar)) :
  let have_values :=
    Forall (Forall (fun v => (v < length (CpSat.solution r))%nat)) jobs in
  (exists rest,
     printed (Scheduler._print_results r jobs)
     = PrintMakespan (CpSat.ObjectiveValue r) :: rest)
  /\ (snd (Scheduler._print_results r jobs) = Returned tt <-> have_values)
  /\ (have_values ->
      length (printed (Scheduler._print_results r jobs)) = S (length jobs))
  /\ (~ have_values ->
      snd (Scheduler._print_results r jobs) = Raised NoSolutionValue
      /\ (length (printed (Scheduler._print_results r jobs)) <= length jobs)%nat
      /\ exists k,
           (k < length jobs)%nat
           /\ length (printed (Scheduler._print_results r jobs)) = S k
           /\ Forall (Forall (fun v => (v < length (CpSat.solution r))%nat))
                     (firstn k jobs)
           /\ ~ Forall (fun v => (v < length (CpSat.solution r))%nat)
                       (nth k jobs [])).
Proof.
  intros have_values. unfold Scheduler._print_results, printed.
  assert (Hiff : Forall (fun ir : nat * list CpSat.IntVar =>
                   Forall (fun v => (v < length (CpSat.solution r))%nat) (snd ir))
                   (enumerate jobs) <-> have_values).
  { apply (PrintFacts.Forall_enumerate
             (Forall (fun v => (v < length (CpSat.solution r))%nat))). }
  destruct (PrintFacts.machines_loop_cases r (enumerate jobs))
    as [[Hall (out & Hout & Hlen)]|[Hnot (out & Hout)]].
  - rewrite PrintFacts.py_bind_print. cbv beta. rewrite Hout. simpl.
    rewrite BuildFacts.length_enumerate in Hlen.
    split; [eexists; reflexivity|]. split; [tauto|].
    split; [intros _; now rewrite Hlen|]. intros Hno. tauto.
  - rewrite PrintFacts.py_bind_print. cbv beta.
    assert (Hshort : (length out < length jobs)%nat).
    { clear Hiff have_values.
      rewrite <- (BuildFacts.length_enumerate jobs).
      revert out Hout Hnot. induction (enumerate jobs) as [|[i row] rows IH];
        intros out Hout Hnot.
      - exfalso. apply Hnot. constructor.
      - simpl in Hout.
        destruct (PrintFacts.scheduled_in_cases r (enumerate row))
          as [[Hrow [js Hjs]]|[Hrow Hraise]].
        + rewrite Hjs in Hout. simpl in Hout.
          destruct (py_for rows _) as [out' r'] eqn:Hfor.
          injection Hout as <- ->. simpl.
          apply (proj1 (PrintFacts.Forall_enumerate
                   (fun v => (v < length (CpSat.solution r))%nat) row)) in Hrow.
          assert (~ Forall (fun ir : nat * list CpSat.IntVar =>
                     Forall (fun v => (v < length (CpSat.solution r))%nat) (snd ir)) rows).
          { intros H. apply Hnot. now constructor. }
          specialize (IH out' eq_refl H). lia.
        + rewrite Hraise in Hout. simpl in Hout. injection Hout as <-.
          simpl. lia. }
    assert (Hgap : ~ have_values) by tauto.
    destruct (PrintFacts.loop_stops_at_first_gap r jobs 0 Hgap)
      as (k & out' & Hk & Hout' & Hlen' & Hbefore & Hmiss).
    fold (enumerate jobs) in Hout'. rewrite Hout in Hout'.
    injection Hout' as <-.
    rewrite Hout. simpl.
    split; [eexists; reflexivity|]. split; [split; [discriminate|tauto]|].
    split; [tauto|]. intros _. split; [reflexivity|]. split; [lia|].
    exists k. split; [assumption|]. split; [now rewrite Hlen'|].
    split; assumption.
Qed.

Module NegativeTotal.
Import CpSat Model.

Lemma variables_makespan times M :
  nth_error (variables (model_of times M)) (makespan_var M (length times))
  = Some (mk_var "makespan" 0 (sum times)).
Proof.
  unfold model_of, makespan_var. simpl.
  rewrite nth_error_app2 by (rewrite BuildFacts.length_flat_rows; lia).
  rewrite BuildFacts.length_flat_rows.
  replace (M * length times + M - M * length times)%nat with M by lia.
  rewrite nth_error_app2 by (rewrite length_map, length_seq; lia).
  now rewrite length_map, length_seq, Nat.sub_diag.
Qed.

(** A negative sum of durations leaves the makespan variable no value. *)
Lemma no_solution_below_zero times M s :
  sum times < 0 -> is_feasible (model_of times M) s = false.
Proof.
  intros Hneg. destruct (is_feasible (model_of times M) s) eqn:Hs; [|reflexivity].
  unfold is_feasible in Hs. apply andb_prop in Hs as [Hdom _].
  pose proof (Semantics.domains_ok_nth _ _ _ _ Hdom (variables_makespan times M)) as Hd.
  unfold in_domain, mk_var in Hd. simpl in Hd.
  apply andb_prop in Hd as [H0 H1]. apply Z.leb_le in H0, H1. lia.
Qed.

Lemma print_results_no_solution r v row rest :
  solution r = [] ->
  Scheduler._print_results r ((v :: row) :: rest)
  = ([PrintMakespan (ObjectiveValue r)], Raised NoSolutionValue).
Proof.
  intros Hsol. unfold Scheduler._print_results.
  rewrite PrintFacts.py_bind_print. cbv beta.
  unfold enumerate. simpl. unfold Value. rewrite Hsol.
  destruct v; reflexivity.
Qed.

End NegativeTotal.

(** X9: durations whose sum is negative, with at least one machine and one
    job: the load and makespan domains [0..upper_bound] are empty, the
    solver finds no solution, and [schedule] raises while printing the jobs
    of the first machine, after the makespan line for objective value [0]. *)
Theorem schedule_raises_on_negative_total Solve job_times n_machines :
  Conforming Solve ->
  1 <= n_machines -> job_times <> [] -> sum job_times < 0 ->
  schedule Solve job_times n_machines
  = ([PrintMakespan 0], Raised NoSolutionValue).
Proof.
  intros Hsolve Hnm Hjobs Hneg.
  unfold schedule, Scheduler.schedule. rewrite BuildFacts.build_run.
  destruct (Hsolve (Model.model_of job_times (Z.to_nat n_machines)))
    as [s Hs _|st _ _].
  { now rewrite NegativeTotal.no_solution_below_zero in Hs. }
  destruct (Z.to_nat n_machines) as [|M] eqn:HM; [lia|].
  destruct job_times as [|t times]; [congruence|].
  unfold Model.rows. cbn [seq map length Nat.mul Nat.add].
  rewrite NegativeTotal.print_results_no_solution by reflexivity.
  reflexivity.
Qed.

Lemma schedule_raises_on_negative_total_witness :
  schedule ReferenceSolver.Solve [1; -2] 1
  = ([PrintMakespan 0], Raised NoSolutionValue).
Proof.
  apply (schedule_raises_on_negative_total ReferenceSolver.Solve [1; -2] 1).
  - exact ReferenceFacts.Solve_conforming.
  - lia.
  - discriminate.
  - reflexivity.
Defined.

(** ** Loads, bounds and the returned value *)

Module ValueFacts.
Import CpSat Model Problem Correspondence Sums Encoding.

Lemma sum_map_add {A} (f g : A -> Z) (l : list A) :
  sum (map (fun a => f a + g a) l) = sum (map f l) + sum (map g l).
Proof.
  induction l as [|a l IH]; simpl; [reflexivity|].
  rewrite !sum_cons, IH. lia.
Qed.


Lemma sum_map_const {A} (c : Z) (l : list A) :
  sum (map (fun _ => c) l) = Z.of_nat (length l) * c.
Proof.
  induction l as [|a l IH]; [reflexivity|].
  cbn [map length]. rewrite sum_cons, IH. lia.
Qed.

Lemma pick_sum (a : nat) (t : Z) : forall M,
  sum (map (fun i => if (a =? i)%nat then t else 0) (seq 0 M))
  = if (a <? M)%nat then t else 0.
Proof.
  induction M as [|M IH]; [reflexivity|].
  rewrite seq_S, map_app, sum_app, IH. simpl. rewrite sum_cons, sum_nil.
  destruct (Nat.ltb_spec a M), (Nat.ltb_spec a (S M)), (Nat.eqb_spec a M); lia.
Qed.

(** Adding up over the machines first or over the jobs first. *)
Lemma sum_wsum_swap (f : nat -> nat -> Z -> Z) (M : nat) : forall times a,
  sum (map (fun i => wsum (f i) a times) (seq 0 M))
  = wsum (fun j t => sum (map (fun i => f i j t) (seq 0 M))) a times.
Proof.
  induction times as [|t times IH]; intros a.
  - rewrite wsum_nil. rewrite (sum_map_const 0). lia.
  - rewrite wsum_cons, <- IH, <- sum_map_add.
    apply sum_map_ext. intros i _. apply wsum_cons.
Qed.

(** The loads of the machines add up to the sum of the durations. *)
Lemma sum_loads times M asg :
  total M (length times) asg ->
  sum (map (load times asg) (seq 0 M)) = sum times.
Proof.
  intros Htot.
  change (sum (map (fun i => wsum (fun j t => if (asg j =? i)%nat then t else 0)
                                  0 times) (seq 0 M)) = sum times).
  rewrite (sum_wsum_swap (fun i j t => if (asg j =? i)%nat then t else 0) M times 0).
  rewrite <- (wsum_snd times 0). apply wsum_ext. intros k Hk. simpl.
  rewrite pick_sum. specialize (Htot k Hk).
  destruct (Nat.ltb_spec (asg k) M); [reflexivity|lia].
Qed.




End ValueFacts.

(** X10: on valid input every job index is listed for exactly one machine:
    the tuples [_print_results] prints split the jobs between the machines. *)
Theorem printed_tuples_split_the_jobs Solve job_times n_machines :
  Conforming Solve ->
  1 <= n_machines -> Forall (fun t => 0 <= t) job_times ->
  forall j, (j < length job_times)%nat ->
  exists! i, (i < Z.to_nat n_machines)%nat
             /\ In j (assigned_jobs Solve job_times n_machines i).
Proof.
  intros Hsolve Hnm Hpos j Hj.
  destruct (Run.schedule_valid Solve Hsolve job_times n_machines Hnm Hpos)
    as (s & Hs & Hr & _ & _).
  set (M := Z.to_nat n_machines) in *.
  assert (Hin : forall i, (i < M)%nat ->
            (In j (assigned_jobs Solve job_times n_machines i)
             <-> Correspondence.machine_of s M (length job_times) j = i)).
  { intros i Hi. rewrite Bridge.assigned_jobs_scheduled.
    - fold M. rewrite Hr. simpl. unfold Correspondence.scheduled.
      rewrite filter_In, in_seq.
      destruct (Encoding.machine_of_spec job_times M s j Hs Hj) as [_ Hx].
      rewrite (Hx i Hi).
      destruct (Nat.eqb_spec (Correspondence.machine_of s M (length job_times) j) i)
        as [Heq|Hne]; simpl; split.
      + intros _. exact Heq.
      + intros _. split; [lia|reflexivity].
      + intros [_ H]. discriminate H.
      + intros H. contradiction.
    - fold M. rewrite Hr. simpl. rewrite (Correspondence.sound_length _ _ _ Hs). lia.
    - exact Hi. }
  destruct (Encoding.machine_of_spec job_times M s j Hs Hj) as [Hlt _].
  exists (Correspondence.machine_of s M (length job_times) j). split.
  - split; [assumption|]. now apply Hin.
  - intros i [Hi Hi']. now apply (proj1 (Hin i Hi)).
Qed.

Lemma printed_tuples_split_the_jobs_witness :
  exists! i, (i < Z.to_nat 2)%nat
             /\ In 1%nat (assigned_jobs ReferenceSolver.Solve [1; 2; 3] 2 i).
Proof.
  apply (printed_tuples_split_the_jobs ReferenceSolver.Solve [1; 2; 3] 2).
  - exact ReferenceFacts.Solve_conforming.
  - lia.
  - repeat constructor; lia.
  - simpl; lia.
Defined.

(** X11: on valid input no duration is lost or counted twice: the
    durations of the jobs listed for the machines add up, over all machines,
    to the sum of all durations. *)
Theorem machine_loads_add_up_to_total Solve job_times n_machines :
  Conforming Solve ->
  1 <= n_machines -> Forall (fun t => 0 <= t) job_times ->
  sum (map (fun i => Problem.jobs_load job_times
                       (assigned_jobs Solve job_times n_machines i))
           (seq 0 (Z.to_nat n_machines)))
  = sum job_times.
Proof.
  intros Hsolve Hnm Hpos.
  destruct (Run.schedule_valid Solve Hsolve job_times n_machines Hnm Hpos)
    as (s & Hs & Hr & _ & _).
  set (M := Z.to_nat n_machines) in *.
  rewrite <- (ValueFacts.sum_loads job_times M
                (Correspondence.machine_of s M (length job_times)))
    by now apply Encoding.sound_total.
  apply Sums.sum_map_ext. intros i Hi. apply in_seq in Hi.
  rewrite Bridge.assigned_jobs_scheduled.
  - fold M. rewrite Hr. simpl.
    rewrite Encoding.sound_load_assignment by (assumption || lia).
    apply Optimum.sound_load_scheduled; [assumption|lia].
  - fold M. rewrite Hr. simpl. rewrite (Correspondence.sound_length _ _ _ Hs). lia.
  - fold M. lia.
Qed.

Lemma machine_loads_add_up_to_total_witness :
  sum (map (fun i => Problem.jobs_load [1; 2; 3]
                       (assigned_jobs ReferenceSolver.Solve [1; 2; 3] 2 i))
           (seq 0 (Z.to_nat 2)))
  = sum [1; 2; 3].
Proof.
  apply (machine_loads_add_up_to_total ReferenceSolver.Solve [1; 2; 3] 2).
  - exact ReferenceFacts.Solve_conforming.
  - lia.
  - repeat constructor; lia.
Defined.





Module Variation.
Import CpSat Problem Sums Encoding.



Lemma wsum_le_lists (f : nat -> Z -> Z) :
  (forall j t t', t <= t' -> f j t <= f j t') ->
  forall times times', Forall2 Z.le times times' ->
  forall a, wsum f a times <= wsum f a times'.
Proof.
  intros Hmono times times' H. induction H as [|t t' times times' Ht _ IH]; intros a.
  - reflexivity.
  - rewrite !wsum_cons. specialize (IH (S a)). specialize (Hmono a t t' Ht). lia.
Qed.

Lemma makespan_le_lists times times' M asg :
  (0 < M)%nat -> Forall2 Z.le times times' ->
  makespan times M asg <= makespan times' M asg.
Proof.
  intros HM Hle.
  destruct (makespan_is_load times M asg HM) as (i & Hi & ->).
  pose proof (makespan_upper times' M asg i Hi).
  assert (load times asg i <= load times' asg i).
  { rewrite !load_wsum. apply wsum_le_lists; [|assumption].
    intros j t t' Ht. destruct (_ =? _)%nat; lia. }
  lia.
Qed.





(** A job of duration zero can be put anywhere. *)
Lemma optimal_zero_job times M v :
  (0 < M)%nat -> optimal_makespan times M v ->
  optimal_makespan (times ++ [0]) M v.
Proof.
  intros HM [(asg & Htot & <-) Hmin].
  set (asg' := fun j => if (j =? length times)%nat then 0%nat else asg j).
  assert (Hload : forall asg0 i, load (times ++ [0]) asg0 i = load times asg0 i).
  { intros asg0 i. rewrite Optimum.load_app. destruct (_ =? _)%nat; lia. }
  assert (Hms : forall asg0, makespan (times ++ [0]) M asg0 = makespan times M asg0).
  { intros asg0. unfold makespan.
    now rewrite (map_ext _ _ (Hload asg0)). }
  assert (Hsame : makespan times M asg' = makespan times M asg).
  { assert (Hl : forall i, load times asg' i = load times asg i).
    { intros i. rewrite !load_wsum. apply wsum_ext. intros k Hk. simpl.
      unfold asg'. destruct (Nat.eqb_spec k (length times)); [lia|reflexivity]. }
    unfold makespan. now rewrite (map_ext _ _ Hl). }
  split.
  - exists asg'. split.
    + intros j Hj. rewrite length_app in Hj. simpl in Hj. unfold asg'.
      destruct (Nat.eqb_spec j (length times)); [lia|]. apply Htot. lia.
    + now rewrite Hms, Hsame.
  - intros asg0 Htot0. rewrite Hms. apply Hmin. intros j Hj. apply Htot0.
    rewrite length_app. simpl. lia.
Qed.

End Variation.



(** X15: making jobs longer never lowers the returned value: if each
    duration of a second job list is at least the corresponding duration of
    the first, so is the makespan returned for it. *)
Theorem longer_jobs_never_lower_makespan Solve job_times job_times' n_machines :
  Conforming Solve ->
  1 <= n_machines -> Forall (fun t => 0 <= t) job_times ->
  Forall2 Z.le job_times job_times' ->
  exists v v',
    returned (schedule Solve job_times n_machines) = Some v
    /\ returned (schedule Solve job_times' n_machines) = Some v'
    /\ v <= v'.
Proof.
  intros Hsolve Hnm Hpos Hle.
  assert (Hpos' : Forall (fun t => 0 <= t) job_times').
  { clear -Hpos Hle. induction Hle as [|t t' l l' Ht _ IH]; [constructor|].
    inversion Hpos; subst. constructor; [lia|now apply IH]. }
  destruct (Run.schedule_valid Solve Hsolve job_times n_machines Hnm Hpos)
    as (s & _ & _ & Hrun & [_ Hmin]).
  destruct (Run.schedule_valid Solve Hsolve job_times' n_machines Hnm Hpos')
    as (s' & _ & _ & Hrun' & [(asg' & Htot' & Hv') _]).
  eexists. eexists. split; [now rewrite Hrun|]. split; [now rewrite Hrun'|].
  rewrite <- Hv'. rewrite <- (Forall2_length Hle) in Htot'.
  specialize (Hmin asg' Htot').
  pose proof (Variation.makespan_le_lists job_times job_times'
                (Z.to_nat n_machines) asg' ltac:(lia) Hle).
  lia.
Qed.

Lemma longer_jobs_never_lower_makespan_witness :
  exists v v',
    returned (schedule ReferenceSolver.Solve [1; 2; 3] 2) = Some v
    /\ returned (schedule ReferenceSolver.Solve [2; 2; 4] 2) = Some v'
    /\ v <= v'.
Proof.
  apply (longer_jobs_never_lower_makespan ReferenceSolver.Solve [1; 2; 3] [2; 2; 4] 2).
  - exact ReferenceFacts.Solve_conforming.
  - lia.
  - repeat constructor; lia.
  - repeat constructor; lia.
Defined.

(** X16: a job of duration zero appended to the list changes nothing in the
    returned value. *)
Theorem zero_job_keeps_makespan Solve job_times n_machines :
  Conforming Solve ->
  1 <= n_machines -> Forall (fun t => 0 <= t) job_times ->
  exists v,
    returned (schedule Solve job_times n_machines) = Some v
    /\ returned (schedule Solve (job_times ++ [0]) n_machines) = Some v.
Proof.
  intros Hsolve Hnm Hpos.
  assert (Hpos' : Forall (fun t => 0 <= t) (job_times ++ [0])).
  { apply Forall_app. split; [assumption|]. constructor; [lia|constructor]. }
  destruct (Run.schedule_valid Solve Hsolve job_times n_machines Hnm Hpos)
    as (s & _ & _ & Hrun & Hopt).
  destruct (Run.schedule_valid Solve Hsolve (job_times ++ [0]) n_machines Hnm Hpos')
    as (s' & _ & _ & Hrun' & Hopt').
  eexists. split; [now rewrite Hrun|]. rewrite Hrun'. unfold returned. simpl.
  f_equal. apply (Optimum.optimal_makespan_unique _ _ _ _ Hopt').
  apply Variation.optimal_zero_job; [lia|exact Hopt].
Qed.

Lemma zero_job_keeps_makespan_witness :
  exists v,
    returned (schedule ReferenceSolver.Solve [1; 2] 2) = Some v
    /\ returned (schedule ReferenceSolver.Solve ([1; 2] ++ [0]) 2) = Some v.
Proof.
  apply (zero_job_keeps_makespan ReferenceSolver.Solve [1; 2] 2).
  - exact ReferenceFacts.Solve_conforming.
  - lia.
  - repeat constructor; lia.
Defined.


